(** * Self-avoiding random walks with obstacles: main.py and 3d.py

    A shallow embedding of the walk search ([avoid_walk], [possible_steps]),
    the obstacle placer ([generate_obstacles], [random_obstacle_placement])
    and the region bound ([border], [set_max]) of the two scripts, followed
    by the properties of the walks they return.

    Modelling conventions.
    - The walk buffer [np.zeros((D, size))] is a list of its columns, one
      lattice point per slot.  Its entries are float64 values that only ever
      hold small integers, which float64 represents exactly; they are
      modelled as [Z].
    - [False] returned by [avoid_walk] is [None]; a returned buffer is
      [Some steps].
    - Exceptions are explicit ([Exn]).  Recursive functions take a depth
      budget, the number of nested calls the interpreter allows, and answer
      [NoFuel] (Python's [RecursionError]) when it runs out.  The search
      nests one call per slot: [avoid_walk_fuel] carries the budget, and
      [avoid_walk] is the search with the budget it needs, that is, a run
      that stays within the interpreter's limit.  For the placer's unbounded
      retries no budget is enough in general.
    - The two random sources ([random] for the placer, [np.random] for the
      shuffle) are streams of raw draws; every property below holds for
      every stream.
    - The float arithmetic of the bound is exact on the values it meets:
      [1.75] is [7 / 4], and products and halves of small integers are
      representable.  [np.sqrt] and [np.cbrt] are taken with the integer
      nearest to the real root.  Rounding their float64 result gives that
      integer as long as the root is not within float rounding error of a
      half-integer, which holds with a wide margin for sizes up to
      [root_exact_bound] (2 ^ 40) and fails from about 2 ^ 50 on; statements
      about the bound at arbitrary sizes carry that hypothesis. *)

From Stdlib Require Import ZArith QArith Lia.
From stdpp Require Import base tactics option numbers list.

Local Open Scope Z_scope.

(** ** Outcomes of a call *)

Inductive exn := ValueError | IndexError.

Inductive result (A : Type) :=
  | Ok (a : A)
  | Exn (e : exn)
  | NoFuel.
Arguments Ok {A} a.
Arguments Exn {A} e.
Arguments NoFuel {A}.

(** ** The random sources *)

Definition rng := list nat.

Definition next (g : rng) : nat * rng :=
  match g with
  | [] => (0%nat, [])
  | r :: g' => (r, g')
  end.

(** [random.randint(a, b)]: an integer of the inclusive range [a..b];
    [ValueError] when the range is empty. *)
Definition randint (a b : Z) (g : rng) : result Z * rng :=
  if decide (b < a) then (Exn ValueError, g)
  else let '(r, g') := next g in (Ok (a + Z.of_nat r mod (b - a + 1)), g').

(** [np.random.shuffle]: draws the elements one by one without replacement. *)
Fixpoint shuffle_n {A} (n : nat) (l : list A) (g : rng) : list A * rng :=
  match n with
  | O => (l, g)
  | S n' =>
      let '(r, g1) := next g in
      let k := (r mod length l)%nat in
      match l !! k with
      | Some x => let '(rest, g2) := shuffle_n n' (delete k l) g1 in (x :: rest, g2)
      | None => (l, g1)
      end
  end.

Definition shuffle {A} (l : list A) (g : rng) : list A * rng :=
  shuffle_n (length l) l g.

(** ** The search, common to both scripts

    [avoid_walk] is the same text in main.py and 3d.py; the scripts differ in
    [possible_steps], which the section takes as a variable. *)

Section Search.
Context {P : Type}.
Variable possible_steps : list P → nat → rng → result (list P) * rng.

(** [temp_steps] of the loop body: the candidate [j] written to slot [i]
    and, unless [i] is the last slot, copied to slot [i + 1]. *)
Definition commit (steps : list P) (i : nat) (j : P) : list P :=
  let temp_steps := <[i := j]> steps in
  if decide (i < length steps - 1)%nat
  then from_option (λ v, <[S i := v]> temp_steps) temp_steps (temp_steps !! i)
  else temp_steps.

(** [for j in poss_steps]: the first candidate whose recursive call returns
    a walk wins; [False] when every candidate is a dead end. *)
Fixpoint try_each (recur : list P → rng → result (option (list P)) * rng)
    (steps : list P) (i : nat) (cands : list P) (g : rng)
  : result (option (list P)) * rng :=
  match cands with
  | [] => (Ok None, g)
  | j :: cands' =>
      match recur (commit steps i j) g with
      | (Ok (Some w), g') => (Ok (Some w), g')
      | (Ok None, g') => try_each recur steps i cands' g'
      | (Exn e, g') => (Exn e, g')
      | (NoFuel, g') => (NoFuel, g')
      end
  end.

Fixpoint avoid_walk_fuel (fuel : nat) (steps : list P) (i : nat) (g : rng)
  : result (option (list P)) * rng :=
  match fuel with
  | O => (NoFuel, g)
  | S fuel' =>
      if decide (i = length steps) then (Ok (Some steps), g)
      else
        match possible_steps steps i g with
        | (Ok poss_steps, g1) =>
            if decide (length poss_steps = 0%nat) then (Ok None, g1)
            else try_each (λ t g', avoid_walk_fuel fuel' t (S i) g')
                   steps i poss_steps g1
        | (Exn e, g1) => (Exn e, g1)
        | (NoFuel, g1) => (NoFuel, g1)
        end
  end.

(** The recursion descends once per remaining slot, so this budget is
    never exhausted (see [avoid_walk_fuel_enough]): this is the search of a
    run that does not reach the interpreter's recursion limit.  Where the
    limit matters the statements are about [avoid_walk_fuel]. *)
Definition avoid_walk (steps : list P) (i : nat) (g : rng)
  : result (option (list P)) * rng :=
  avoid_walk_fuel (S (length steps - i)) steps i g.
End Search.

(** ** Numeric helpers *)

(** Python's [range(start, stop)] and [range(start, stop, -1)]. *)
Definition range (start stop : Z) : list Z := seqZ start (stop - start).
Definition range_down (start stop : Z) : list Z :=
  (λ k, start - k) <$> seqZ 0 (start - stop).

(** Python's [round] on a float, here an exact rational: nearest integer,
    ties to the even one. *)
Definition py_round (q : Q) : Z :=
  let n := Qnum q in
  let d := Z.pos (Qden q) in
  let fl := n / d in
  let r2 := 2 * (n mod d) in
  if decide (r2 < d) then fl
  else if decide (d < r2) then fl + 1
  else if Z.even fl then fl else fl + 1.

(** [round(np.sqrt(size))]: the integer nearest to the square root.  A
    square root of an integer is never half-way between two integers; the
    float64 root can be, from about [size = 2 ^ 50] on, so this is the
    code's value for sizes below that. *)
Definition round_sqrt (size : Z) : Z :=
  let s := Z.sqrt size in
  if decide (size ≤ s * s + s) then s else s + 1.

(** Largest [c] with [c ^ 3 ≤ n], by counting up. *)
Fixpoint cbrt_floor_from (fuel : nat) (c n : Z) : Z :=
  match fuel with
  | O => c
  | S fuel' => if decide ((c + 1) ^ 3 ≤ n) then cbrt_floor_from fuel' (c + 1) n else c
  end.

Definition cbrt_floor (n : Z) : Z := cbrt_floor_from (Z.to_nat n) 0 n.

(** [round(np.cbrt(size))]: the integer nearest to the cube root; again no
    ties, [(2 c + 1) ^ 3] being odd.  As for the square root, this is the
    code's value while the float64 root is not within rounding error of a
    half-integer. *)
Definition round_cbrt (size : Z) : Z :=
  let c := cbrt_floor size in
  if decide (8 * size < (2 * c + 1) ^ 3) then c else c + 1.

(** ** main.py: the two-dimensional walk *)

Module Main.

Definition point : Type := Z * Z.

Definition add (p j : point) : point := (p.1 + j.1, p.2 + j.2).

(** [.T.tolist()] of a two-row array: the list of its columns. *)
Definition columns (a : list Z * list Z) : list point := zip a.1 a.2.

(** [h_length] of [border]: [round(round(np.sqrt(size)) * 1.75 / 2)]. *)
Definition h_length (size : nat) : Z :=
  let length := (inject_Z (round_sqrt (Z.of_nat size)) * (7 # 4))%Q in
  py_round (length / inject_Z 2)%Q.

(** The four sides of the box, as [border] assembles them from
    [h_length]: row 0 holds the x values, row 1 the y values. *)
Definition border_of (h_length : Z) : list Z * list Z :=
  let x_top := range (- h_length) (h_length + 1) in
  let side_length := length x_top in
  let y_top := replicate side_length h_length in
  let x_right := replicate side_length h_length in
  let y_right := range_down h_length (- h_length - 1) in
  let x_bottom := range_down h_length (- h_length - 1) in
  let y_bottom := replicate side_length (- h_length) in
  let x_left := replicate side_length (- h_length) in
  let y_left := range (- h_length) (h_length + 1) in
  (x_top ++ x_right ++ x_bottom ++ x_left,
   y_top ++ y_right ++ y_bottom ++ y_left).

Definition border (size : nat) : list Z * list Z := border_of (h_length size).

Definition options : list point := [(0, 1); (0, -1); (1, 0); (-1, 0)].

(** [possible_steps]; [edges] and [obs_points] are the fields of [self]. *)
Definition possible_steps (edges : list Z * list Z) (obs_points : list point)
    (steps : list point) (i : nat) (g : rng) : result (list point) * rng :=
  let edge := columns edges in
  let obs := obs_points in
  match steps !! i with
  | None => (Exn IndexError, g)
  | Some cur =>
      let possible_choices :=
        filter (λ temp, (temp ∉ steps) ∧ (temp ∉ edge) ∧ (temp ∉ obs))
               (add cur <$> options) in
      let '(possible_choices, g') := shuffle possible_choices g in
      (Ok possible_choices, g')
  end.

Definition avoid_walk (edges : list Z * list Z) (obs_points : list point) :=
  avoid_walk (possible_steps edges obs_points).

(** The test [(0 >= origin[0] >= -4) and (0 >= origin[1] >= -4)]. *)
Definition blocks_origin (origin : point) : Prop :=
  (-4 ≤ origin.1 ≤ 0) ∧ (-4 ≤ origin.2 ≤ 0).

#[global] Instance main_blocks_origin_dec origin : Decision (blocks_origin origin) :=
  ltac:(unfold blocks_origin; apply _).

(** [random_obstacle_placement]; [depth] bounds the retries. *)
Fixpoint random_obstacle_placement (depth : nat) (border : list Z * list Z)
    (g : rng) : result point * rng :=
  match border.1 !! 0%nat with
  | None => (Exn IndexError, g)
  | Some b00 =>
      let limit := - b00 in
      match randint (- limit) (limit - 4) g with
      | (Ok x, g1) =>
          match randint (- limit) (limit - 4) g1 with
          | (Ok y, g2) =>
              let origin := (x, y) in
              if decide (blocks_origin origin) then
                match depth with
                | O => (NoFuel, g2)
                | S depth' => random_obstacle_placement depth' border g2
                end
              else (Ok origin, g2)
          | (Exn e, g2) => (Exn e, g2)
          | (NoFuel, g2) => (NoFuel, g2)
          end
      | (Exn e, g1) => (Exn e, g1)
      | (NoFuel, g1) => (NoFuel, g1)
      end
  end.

(** The 4x4 block anchored at [origin], as the pair [[x, y]] of coordinate
    lists that [generate_obstacles] appends to [self.obstacles]. *)
Definition block (origin : point) : list Z * list Z :=
  (j ← range 0 4; k ← range 0 4; [j + origin.1],
   j ← range 0 4; k ← range 0 4; [k + origin.2]).

(** [for i in range(n)]: one placement and one block per round. *)
Fixpoint place_blocks (n : nat) (depth : nat) (border : list Z * list Z)
    (obstacles : list (list Z * list Z)) (g : rng)
  : result (list (list Z * list Z)) * rng :=
  match n with
  | O => (Ok obstacles, g)
  | S n' =>
      match random_obstacle_placement depth border g with
      | (Ok origin, g') =>
          place_blocks n' depth border (obstacles ++ [block origin]) g'
      | (Exn e, g') => (Exn e, g')
      | (NoFuel, g') => (NoFuel, g')
      end
  end.

(** [generate_obstacles]: from the current [self.obstacles] and
    [self.obs_points] to the new ones. *)
Definition generate_obstacles (depth : nat) (border : list Z * list Z) (n : Z)
    (self : list (list Z * list Z) * list point) (g : rng)
  : result (list (list Z * list Z) * list point) * rng :=
  let '(obstacles, obs_points) := self in
  if decide (n ≠ 0) then
    match place_blocks (Z.to_nat n) depth border obstacles g with
    | (Ok obstacles, g') =>
        (Ok (obstacles, obs_points ++ (i ← obstacles; columns i)), g')
    | (Exn e, g') => (Exn e, g')
    | (NoFuel, g') => (NoFuel, g')
    end
  else (Ok self, g).

(** [rand_avoid] on a fresh object ([obstacles] and [obs_points] empty);
    [g_py] is [random]'s state and [g_np] is [np.random]'s. *)
Definition rand_avoid (depth : nat) (size : nat) (g_py g_np : rng)
  : result (option (list point)) :=
  let steps := replicate size (0, 0) in
  let edges := border size in
  match generate_obstacles depth edges 3 ([], []) g_py with
  | (Ok (_, obs_points), _) => (avoid_walk edges obs_points steps 1 g_np).1
  | (Exn e, _) => Exn e
  | (NoFuel, _) => NoFuel
  end.

End Main.

(** ** 3d.py: the three-dimensional walk *)

Module ThreeD.

Definition point : Type := Z * Z * Z.

Definition add (p j : point) : point :=
  (p.1.1 + j.1.1, p.1.2 + j.1.2, p.2 + j.2).

(** [.T.tolist()] of a three-row array. *)
Definition columns (a : list Z * list Z * list Z) : list point :=
  zip (zip a.1.1 a.1.2) a.2.

(** [set_max]: [round(round(np.cbrt(size)) * 1.75 / 2)]. *)
Definition set_max (size : nat) : Z :=
  let length := (inject_Z (round_cbrt (Z.of_nat size)) * (7 # 4))%Q in
  let h_length := py_round (length / inject_Z 2)%Q in
  h_length.

Definition options : list point :=
  [(0, 0, 1); (0, 0, -1); (0, 1, 0); (0, -1, 0); (1, 0, 0); (-1, 0, 0)].

(** [possible_steps]; [max_distance] and [obs_points] are the fields of
    [self]. *)
Definition possible_steps (max_distance : Z) (obs_points : list point)
    (steps : list point) (i : nat) (g : rng) : result (list point) * rng :=
  let obs := obs_points in
  match steps !! i with
  | None => (Exn IndexError, g)
  | Some cur =>
      let possible_choices :=
        filter (λ temp : point,
                  (temp ∉ steps)
                  ∧ (Z.abs temp.1.1 < max_distance
                     ∧ Z.abs temp.1.2 < max_distance
                     ∧ Z.abs temp.2 < max_distance)
                  ∧ (temp ∉ obs))
               (add cur <$> options) in
      let '(possible_choices, g') := shuffle possible_choices g in
      (Ok possible_choices, g')
  end.

Definition avoid_walk (max_distance : Z) (obs_points : list point) :=
  avoid_walk (possible_steps max_distance obs_points).

(** The test [(0 >= origin[0] >= -4) and (0 >= origin[1] >= -4) and
    (0 >= origin[2] >= -4)]. *)
Definition blocks_origin (origin : point) : Prop :=
  (-4 ≤ origin.1.1 ≤ 0) ∧ (-4 ≤ origin.1.2 ≤ 0) ∧ (-4 ≤ origin.2 ≤ 0).

#[global] Instance threed_blocks_origin_dec origin : Decision (blocks_origin origin) :=
  ltac:(unfold blocks_origin; apply _).

(** [random_obstacle_placement]; [depth] bounds the retries. *)
Fixpoint random_obstacle_placement (depth : nat) (max_distance : Z) (g : rng)
  : result point * rng :=
  let max := max_distance in
  match randint (- max) (max - 4) g with
  | (Ok x, g1) =>
      match randint (- max) (max - 4) g1 with
      | (Ok y, g2) =>
          match randint (- max) (max - 4) g2 with
          | (Ok z, g3) =>
              let origin := (x, y, z) in
              if decide (blocks_origin origin) then
                match depth with
                | O => (NoFuel, g3)
                | S depth' => random_obstacle_placement depth' max_distance g3
                end
              else (Ok origin, g3)
          | (Exn e, g3) => (Exn e, g3)
          | (NoFuel, g3) => (NoFuel, g3)
          end
      | (Exn e, g2) => (Exn e, g2)
      | (NoFuel, g2) => (NoFuel, g2)
      end
  | (Exn e, g1) => (Exn e, g1)
  | (NoFuel, g1) => (NoFuel, g1)
  end.

(** The 4x4x4 block anchored at [origin], as the triple [[x, y, z]] of
    coordinate lists appended to [self.obstacles]. *)
Definition block (origin : point) : list Z * list Z * list Z :=
  (j ← range 0 4; k ← range 0 4; l ← range 0 4; [j + origin.1.1],
   j ← range 0 4; k ← range 0 4; l ← range 0 4; [k + origin.1.2],
   j ← range 0 4; k ← range 0 4; l ← range 0 4; [l + origin.2]).

Fixpoint place_blocks (n : nat) (depth : nat) (max_distance : Z)
    (obstacles : list (list Z * list Z * list Z)) (g : rng)
  : result (list (list Z * list Z * list Z)) * rng :=
  match n with
  | O => (Ok obstacles, g)
  | S n' =>
      match random_obstacle_placement depth max_distance g with
      | (Ok origin, g') =>
          place_blocks n' depth max_distance (obstacles ++ [block origin]) g'
      | (Exn e, g') => (Exn e, g')
      | (NoFuel, g') => (NoFuel, g')
      end
  end.

(** [generate_obstacles]: from the current [self.obstacles] and
    [self.obs_points] to the new ones. *)
Definition generate_obstacles (depth : nat) (max_distance : Z) (n : Z)
    (self : list (list Z * list Z * list Z) * list point) (g : rng)
  : result (list (list Z * list Z * list Z) * list point) * rng :=
  let '(obstacles, obs_points) := self in
  if decide (0 < n) then
    match place_blocks (Z.to_nat n) depth max_distance obstacles g with
    | (Ok obstacles, g') =>
        (Ok (obstacles, obs_points ++ (i ← obstacles; columns i)), g')
    | (Exn e, g') => (Exn e, g')
    | (NoFuel, g') => (NoFuel, g')
    end
  else (Ok self, g).

(** [rand_avoid] on a fresh object. *)
Definition rand_avoid (depth : nat) (size : nat) (g_py g_np : rng)
  : result (option (list point)) :=
  let steps := replicate size (0, 0, 0) in
  let max_distance := set_max size in
  match generate_obstacles depth max_distance 2 ([], []) g_py with
  | (Ok (_, obs_points), _) => (avoid_walk max_distance obs_points steps 1 g_np).1
  | (Exn e, _) => Exn e
  | (NoFuel, _) => NoFuel
  end.

(** [show_border]: the yellow outline, six edges of the cube traced one
    after the other; [max_distance] is the field of [self]. *)
Definition show_border (max_distance : Z) : list Z * list Z * list Z :=
  let max := max_distance in
  (* bottom left *)
  let x1 := range_down max (- max - 1) in
  let side_length := length x1 in
  let y1 := replicate side_length (- max) in
  let z1 := replicate side_length (- max) in
  (* top left *)
  let x2 := replicate side_length (- max) in
  let y2 := replicate side_length (- max) in
  let z2 := range (- max) (max + 1) in
  (* top left *)
  let x3 := replicate side_length (- max) in
  let y3 := range (- max) (max + 1) in
  let z3 := replicate side_length max in
  (* top right *)
  let x4 := range (- max) (max + 1) in
  let y4 := replicate side_length max in
  let z4 := replicate side_length max in
  (* right top *)
  let x5 := replicate side_length max in
  let y5 := replicate side_length max in
  let z5 := range_down max (- max - 1) in
  (* right bottom *)
  let x6 := replicate side_length max in
  let y6 := range_down max (- max - 1) in
  let z6 := replicate side_length (- max) in
  (x1 ++ x2 ++ x3 ++ x4 ++ x5 ++ x6,
   y1 ++ y2 ++ y3 ++ y4 ++ y5 ++ y6,
   z1 ++ z2 ++ z3 ++ z4 ++ z5 ++ z6).

End ThreeD.

(** ** The bound as section 4.1 of the specification words it

    "Compute the D-th root of N, multiply by 1.75, round to nearest integer
    to get a full side length L, then H = round(L / 2)."  These definitions
    follow that sentence, not the scripts; they exist to be compared with
    [Main.h_length] and [ThreeD.set_max]. *)

Module Spec.

(** Nearest integer to [1.75 * sqrt n], ties to even: with [f] the floor,
    [1.75 * sqrt n] is below [f + 1/2] exactly when
    [49 * n < 4 * (2 * f + 1) ^ 2]. *)
Definition side_length_2d (n : Z) : Z :=
  let f := Z.sqrt (49 * n / 16) in
  if decide (49 * n < 4 * (2 * f + 1) ^ 2) then f
  else if decide (4 * (2 * f + 1) ^ 2 < 49 * n) then f + 1
  else if Z.even f then f else f + 1.

(** Nearest integer to [1.75 * cbrt n], ties to even: the comparison is
    [343 * n] against [8 * (2 * f + 1) ^ 3]. *)
Definition side_length_3d (n : Z) : Z :=
  let f := cbrt_floor (343 * n / 64) in
  if decide (343 * n < 8 * (2 * f + 1) ^ 3) then f
  else if decide (8 * (2 * f + 1) ^ 3 < 343 * n) then f + 1
  else if Z.even f then f else f + 1.

Definition half_width_2d (size : nat) : Z :=
  py_round (inject_Z (side_length_2d (Z.of_nat size)) / inject_Z 2)%Q.

Definition half_width_3d (size : nat) : Z :=
  py_round (inject_Z (side_length_3d (Z.of_nat size)) / inject_Z 2)%Q.

End Spec.

(** ** Vocabulary of the properties *)

(** A single lattice step: one unit along exactly one axis. *)
Definition unit_step2 (p q : Main.point) : Prop :=
  (Z.abs (q.1 - p.1) = 1 ∧ q.2 = p.2) ∨ (q.1 = p.1 ∧ Z.abs (q.2 - p.2) = 1).

Definition unit_step3 (p q : ThreeD.point) : Prop :=
  (Z.abs (q.1.1 - p.1.1) = 1 ∧ q.1.2 = p.1.2 ∧ q.2 = p.2)
  ∨ (q.1.1 = p.1.1 ∧ Z.abs (q.1.2 - p.1.2) = 1 ∧ q.2 = p.2)
  ∨ (q.1.1 = p.1.1 ∧ q.1.2 = p.1.2 ∧ Z.abs (q.2 - p.2) = 1).

(** Membership in the bounding region of half-width [H]. *)
Definition inside2 (H : Z) (p : Main.point) : Prop :=
  Z.abs p.1 < H ∧ Z.abs p.2 < H.

Definition inside3 (H : Z) (p : ThreeD.point) : Prop :=
  Z.abs p.1.1 < H ∧ Z.abs p.1.2 < H ∧ Z.abs p.2 < H.

(** A walk in the sense of the data model: it starts at [origin] and its
    consecutive points are one step apart. *)
Definition stepwise {P} (origin : P) (step : P → P → Prop) (w : list P) : Prop :=
  w !! 0%nat = Some origin
  ∧ ∀ (k : nat) p q, w !! k = Some p → w !! S k = Some q → step p q.

(** Obstacles as the placer builds them: blocks at accepted origins. *)
Definition main_placed (ob : list Z * list Z) : Prop :=
  ∃ origin, ob = Main.block origin ∧ ¬ Main.blocks_origin origin.

Definition threed_placed (ob : list Z * list Z * list Z) : Prop :=
  ∃ origin, ob = ThreeD.block origin ∧ ¬ ThreeD.blocks_origin origin.

(** A polyline a plot can draw without gaps: consecutive points coincide
    (where two sides meet) or are one step apart, and the last point closes
    the line on the first. *)
Definition continuous {P} (step : P → P → Prop) (l : list P) : Prop :=
  ∀ (k : nat) p q, l !! k = Some p → l !! S k = Some q → p = q ∨ step p q.

Definition closed_line {P} (l : list P) : Prop :=
  ∃ p, l !! 0%nat = Some p ∧ last l = Some p.

(** A point on one of the twelve edges of the cube of half-width [H]. *)
Definition on_cube_edge (H : Z) (p : ThreeD.point) : Prop :=
  Z.abs p.1.1 ≤ H ∧ Z.abs p.1.2 ≤ H ∧ Z.abs p.2 ≤ H
  ∧ ((Z.abs p.1.1 = H ∧ Z.abs p.1.2 = H)
     ∨ (Z.abs p.1.1 = H ∧ Z.abs p.2 = H)
     ∨ (Z.abs p.1.2 = H ∧ Z.abs p.2 = H)).

(** The move the search may make from [p] to [q]: one lattice step onto a
    point that passes the border (or bound) test and the obstacle test. *)
Definition legal_move2 (edges : list Z * list Z) (obs : list Main.point)
    (p q : Main.point) : Prop :=
  unit_step2 p q ∧ (q ∉ Main.columns edges) ∧ (q ∉ obs).

Definition legal_move3 (max : Z) (obs : list ThreeD.point)
    (p q : ThreeD.point) : Prop :=
  unit_step3 p q ∧ inside3 max q ∧ (q ∉ obs).

(** [w] is a complete walk that agrees with the committed prefix of
    [steps]; the slots from [i] on only repeat committed points. *)
Definition extends {P} (move : P → P → Prop) (steps : list P) (i : nat)
    (w : list P) : Prop :=
  (0 < i ≤ length steps)%nat ∧ length w = length steps
  ∧ take i w = take i steps
  ∧ ((i < length steps)%nat → steps !! i = steps !! (i - 1)%nat)
  ∧ (∀ (k : nat) x, (i ≤ k)%nat → steps !! k = Some x → x ∈ take i steps)
  ∧ NoDup w
  ∧ (∀ (k : nat) p q, w !! k = Some p → w !! S k = Some q → move p q).

(** Sizes up to which the integer nearest to the float64 root is the
    integer nearest to the real root: up to it a real square root stays
    more than 2 ^ -24 away from every half-integer and a real cube root more
    than 2 ^ -32, while the float64 spacing at those roots is at most
    2 ^ -32 and 2 ^ -39. *)
Definition root_exact_bound : Z := 2 ^ 40.

(** [r] is the integer nearest to the [d]-th root of [n]. *)
Definition nearest_root (d : Z) (n r : Z) : Prop :=
  0 ≤ r ∧ (2 * r - 1) ^ d < 2 ^ d * n < (2 * r + 1) ^ d.

(** [h] is [q / 8] rounded to the nearest integer, ties to even. *)
Definition nearest_eighth (q h : Z) : Prop :=
  Z.abs (8 * h - q) ≤ 4 ∧ (Z.abs (8 * h - q) = 4 → Z.even h = true).

(** * Properties *)

(** ** The random sources *)

Lemma shuffle_n_perm {A} (n : nat) (l : list A) (g : rng) :
  (shuffle_n n l g).1 ≡ₚ l.
Proof.
  revert l g. induction n as [|n IH]; intros l g; simpl; [done|].
  destruct (next g) as [r g1].
  destruct (l !! (r mod length l)%nat) as [x|] eqn:Hx; [|done].
  specialize (IH (delete (r mod length l)%nat l) g1).
  destruct (shuffle_n n _ g1) as [rest g2]; simpl in *.
  rewrite IH. symmetry. by apply delete_Permutation.
Qed.

Lemma shuffle_perm {A} (l : list A) (g : rng) : (shuffle l g).1 ≡ₚ l.
Proof. apply shuffle_n_perm. Qed.

Lemma shuffle_nil {A} (g : rng) : shuffle (@nil A) g = ([], g).
Proof. done. Qed.

Lemma randint_empty (a b : Z) (g : rng) :
  b < a → randint a b g = (Exn ValueError, g).
Proof. intros. unfold randint. by rewrite decide_True. Qed.

(** Every integer of the range is drawn by some random source. *)
Lemma randint_reaches (a b x : Z) :
  a ≤ x ≤ b → randint a b [Z.to_nat (x - a)] = (Ok x, []).
Proof.
  intros Hx. unfold randint. rewrite decide_False by lia. simpl.
  rewrite Z2Nat.id, Z.mod_small by lia. do 2 f_equal. lia.
Qed.

Lemma randint_in_range (a b : Z) (g : rng) (x : Z) (g' : rng) :
  randint a b g = (Ok x, g') → a ≤ x ≤ b.
Proof.
  unfold randint. case_decide; [done|].
  destruct (next g) as [r g1]. intros [= <- _].
  pose proof (Z.mod_pos_bound (Z.of_nat r) (b - a + 1)). lia.
Qed.

(** ** The search *)

Section SearchFacts.
Context {P : Type}.
Variable possible_steps : list P → nat → rng → result (list P) * rng.

Lemma length_commit (steps : list P) i j :
  length (commit steps i j) = length steps.
Proof.
  unfold commit. case_decide; [|by rewrite length_insert].
  destruct (_ !! i); simpl; by rewrite !length_insert.
Qed.

Lemma lookup_commit_lt (steps : list P) i j k :
  (k < i)%nat → commit steps i j !! k = steps !! k.
Proof.
  intros Hk. unfold commit. case_decide.
  - destruct (<[i:=j]> steps !! i); simpl;
      rewrite ?list_lookup_insert_ne; auto with lia.
  - rewrite list_lookup_insert_ne; auto with lia.
Qed.

Lemma lookup_commit (steps : list P) i j :
  (i < length steps)%nat → commit steps i j !! i = Some j.
Proof.
  intros Hi. unfold commit. case_decide.
  - rewrite list_lookup_insert_eq by done. simpl.
    rewrite list_lookup_insert_ne by lia. by apply list_lookup_insert_eq.
  - by apply list_lookup_insert_eq.
Qed.

(** The placeholder: the next slot repeats the point just committed. *)
Lemma lookup_commit_next (steps : list P) i j :
  (S i < length steps)%nat → commit steps i j !! S i = Some j.
Proof.
  intros Hi. unfold commit. rewrite decide_True by lia.
  rewrite list_lookup_insert_eq by lia. simpl.
  apply list_lookup_insert_eq. rewrite length_insert. lia.
Qed.

Lemma take_commit (steps : list P) i j :
  (i < length steps)%nat → take (S i) (commit steps i j) = take i steps ++ [j].
Proof.
  intros Hi. rewrite (take_S_r _ _ j) by by apply lookup_commit.
  f_equal. apply list_eq. intros k.
  destruct (decide (k < i)%nat).
  - rewrite !lookup_take_lt by done. by apply lookup_commit_lt.
  - rewrite !lookup_take_ge by lia. done.
Qed.

(** A walk that comes out of the loop came out of the recursive call on
    one of the candidates. *)
Lemma try_each_Some recur (steps : list P) i cands g w g' :
  try_each recur steps i cands g = (Ok (Some w), g') →
  ∃ j ga, j ∈ cands ∧ recur (commit steps i j) ga = (Ok (Some w), g').
Proof.
  revert g. induction cands as [|j cands IH]; intros g; simpl; [done|].
  destruct (recur (commit steps i j) g) as [[[w'|]| |] g1] eqn:Hrec; try done.
  - intros [= -> ->]. exists j, g. split; [left|done].
  - intros (j' & ga & Hj & Hr)%IH. exists j', ga. split; [by right|done].
Qed.

(** If every recursive call answers, so does the loop. *)
Lemma try_each_answers recur (steps : list P) i cands g :
  (∀ j ga, j ∈ cands → ∃ r gb, recur (commit steps i j) ga = (Ok r, gb)) →
  ∃ r g', try_each recur steps i cands g = (Ok r, g').
Proof.
  revert g. induction cands as [|j cands IH]; intros g Hall; simpl; [eauto|].
  destruct (Hall j g) as ([w|] & gb & ->); [left|eauto|].
  apply IH. intros j' ga Hj'. apply Hall. by right.
Qed.


(** *** Termination *)

Hypothesis possible_steps_answers : ∀ steps i g,
  (i < length steps)%nat → ∃ cands g', possible_steps steps i g = (Ok cands, g').

Lemma avoid_walk_fuel_answers fuel steps i g :
  (i ≤ length steps)%nat → (length steps - i < fuel)%nat →
  ∃ r g', avoid_walk_fuel possible_steps fuel steps i g = (Ok r, g').
Proof.
  revert steps i g. induction fuel as [|fuel IH]; intros steps i g Hi Hf; [lia|].
  simpl. case_decide; [eauto|].
  destruct (possible_steps_answers steps i g) as (cands & g1 & ->); [lia|].
  case_decide; [eauto|].
  apply try_each_answers. intros j ga _.
  apply IH; rewrite length_commit; lia.
Qed.


Lemma avoid_walk_answers steps i g :
  (i ≤ length steps)%nat →
  ∃ r g', avoid_walk possible_steps steps i g = (Ok r, g').
Proof. intros. apply avoid_walk_fuel_answers; lia. Qed.

(** *** Invariants of the committed prefix *)

Variable Inv : list P → Prop.

Hypothesis Inv_step : ∀ steps i g cands g' c,
  (0 < i < length steps)%nat →
  possible_steps steps i g = (Ok cands, g') → c ∈ cands →
  steps !! i = steps !! (i - 1)%nat →
  Inv (take i steps) → Inv (take i steps ++ [c]).

Lemma avoid_walk_fuel_inv fuel steps i g w g' :
  (0 < i ≤ length steps)%nat →
  ((i < length steps)%nat → steps !! i = steps !! (i - 1)%nat) →
  Inv (take i steps) →
  avoid_walk_fuel possible_steps fuel steps i g = (Ok (Some w), g') →
  Inv w ∧ length w = length steps.
Proof.
  revert steps i g. induction fuel as [|fuel IH]; intros steps i g Hi Hph HI; [done|].
  simpl. case_decide as Hlen.
  { intros [= <- _]. split; [|done]. rewrite <- (take_ge steps i) by lia. done. }
  destruct (possible_steps steps i g) as [[cands| |] g1] eqn:Hps; try done.
  case_decide; [done|].
  intros (j & ga & Hj & Hrec)%try_each_Some.
  apply IH in Hrec; rewrite ?length_commit in *; [done|lia| |].
  - intros Hlt. rewrite lookup_commit_next by done.
    replace (S i - 1)%nat with i by lia. symmetry. apply lookup_commit. lia.
  - rewrite take_commit by lia. eapply Inv_step; eauto with lia.
Qed.

Lemma avoid_walk_inv (origin : P) (N : nat) g w g' :
  Inv [origin] →
  avoid_walk possible_steps (replicate N origin) 1 g = (Ok (Some w), g') →
  Inv w ∧ length w = N.
Proof.
  intros HI Hrun. destruct N as [|N].
  { unfold avoid_walk in Hrun. simpl in Hrun.
    destruct (possible_steps [] 1 g) as [[cands| |] g1] eqn:Hps; try done.
    case_decide as Hc; [done|]. destruct cands; [done|].
    by apply try_each_Some in Hrun as (j & ga & _ & ?). }
  apply avoid_walk_fuel_inv in Hrun; rewrite ?length_replicate in *; [done|lia| |].
  - intros Hlt. rewrite !lookup_replicate_2 by lia. done.
  - done.
Qed.

End SearchFacts.

(** ** Walks as sequences of steps *)

Lemma stepwise_singleton {P} (origin : P) (step : P → P → Prop) :
  stepwise origin step [origin].
Proof. split; [done|]. by intros [|k] p q. Qed.

Lemma stepwise_snoc {P} (origin : P) (step : P → P → Prop) (l : list P) cur c :
  l !! (length l - 1)%nat = Some cur → stepwise origin step l → step cur c →
  stepwise origin step (l ++ [c]).
Proof.
  intros Hlast [H0 Hst] Hstep. split.
  - rewrite lookup_app_l; [done|]. by eapply lookup_lt_Some.
  - intros k p q Hp Hq. destruct (decide (S k < length l)%nat).
    + rewrite lookup_app_l in Hp by lia. rewrite lookup_app_l in Hq by lia. eauto.
    + assert (S k = length l) as Hk.
      { apply lookup_lt_Some in Hq. rewrite length_app in Hq. simpl in Hq. lia. }
      rewrite lookup_app_l in Hp by lia.
      rewrite lookup_app_r in Hq by lia.
      replace (S k - length l)%nat with 0%nat in Hq by lia.
      replace (length l - 1)%nat with k in Hlast by lia.
      simpl in Hq. congruence.
Qed.

(** The last committed point is the one the placeholder repeats. *)
Lemma last_of_prefix {P} (steps : list P) (i : nat) cur :
  (0 < i < length steps)%nat → steps !! i = steps !! (i - 1)%nat →
  steps !! i = Some cur →
  take i steps !! (length (take i steps) - 1)%nat = Some cur.
Proof.
  intros Hi Hph Hcur. rewrite length_take, Nat.min_l by lia.
  rewrite lookup_take_lt by lia. congruence.
Qed.

Lemma prefix_elem {P} (steps : list P) (i : nat) cur :
  (0 < i < length steps)%nat → steps !! i = steps !! (i - 1)%nat →
  steps !! i = Some cur → cur ∈ take i steps.
Proof.
  intros Hi Hph Hcur. apply elem_of_take. exists (i - 1)%nat.
  split; [congruence|lia].
Qed.

Lemma not_elem_of_prefix {P} (steps : list P) (i : nat) c :
  c ∉ steps → c ∉ take i steps.
Proof.
  intros Hc (k & Hk & _)%elem_of_take. apply Hc. by eapply list_elem_of_lookup_2.
Qed.

(** ** Ranges and the border of main.py *)

Lemma elem_of_range (x a b : Z) : x ∈ range a b ↔ a ≤ x < b.
Proof. unfold range. rewrite elem_of_seqZ. lia. Qed.

Lemma elem_of_range_down (x a b : Z) : x ∈ range_down a b ↔ b < x ≤ a.
Proof.
  unfold range_down. rewrite list_elem_of_fmap. split.
  - intros (k & -> & Hk%elem_of_seqZ). lia.
  - intros Hx. exists (a - x). split; [lia|]. apply elem_of_seqZ. lia.
Qed.

Lemma zip_replicate_r {A B} (l : list A) (n : nat) (c : B) :
  length l = n → zip l (replicate n c) = (λ x, (x, c)) <$> l.
Proof. intros <-. induction l as [|x l IH]; simpl; [done|]. by rewrite IH. Qed.

Lemma zip_replicate_l {A B} (l : list A) (n : nat) (c : B) :
  length l = n → zip (replicate n c) l = (λ y, (c, y)) <$> l.
Proof. intros <-. induction l as [|x l IH]; simpl; [done|]. by rewrite IH. Qed.

Lemma zip_app {A B} (l1 l2 : list A) (k1 k2 : list B) :
  length l1 = length k1 → zip (l1 ++ l2) (k1 ++ k2) = zip l1 k1 ++ zip l2 k2.
Proof. apply zip_with_app. Qed.

Lemma length_range_down_up (h : Z) :
  length (range_down h (- h - 1)) = length (range (- h) (h + 1)).
Proof.
  unfold range_down, range. rewrite length_fmap, !length_seqZ. lia.
Qed.

Lemma main_border_columns (h : Z) :
  Main.columns (Main.border_of h) =
    ((λ x, (x, h)) <$> range (- h) (h + 1))
    ++ ((λ y, (h, y)) <$> range_down h (- h - 1))
    ++ ((λ x, (x, - h)) <$> range_down h (- h - 1))
    ++ ((λ y, (- h, y)) <$> range (- h) (h + 1)).
Proof.
  unfold Main.columns, Main.border_of.
  pose proof (length_range_down_up h) as Hdown.
  set (up := range (- h) (h + 1)) in *.
  set (down := range_down h (- h - 1)) in *.
  cbn [fst snd].
  rewrite !zip_app by (rewrite ?length_replicate; done).
  by rewrite !zip_replicate_r, !zip_replicate_l.
Qed.

(** The border list is the ring at Chebyshev distance [h] from the origin. *)
Lemma main_elem_of_border (h : Z) (p : Main.point) :
  p ∈ Main.columns (Main.border_of h) ↔
    (Z.abs p.1 = h ∧ Z.abs p.2 ≤ h) ∨ (Z.abs p.2 = h ∧ Z.abs p.1 ≤ h).
Proof.
  rewrite main_border_columns, !elem_of_app, !list_elem_of_fmap.
  destruct p as [x y]; simpl. split.
  - intros [(a & [= -> ->] & Ha%elem_of_range)
           |[(a & [= -> ->] & Ha%elem_of_range_down)
            |[(a & [= -> ->] & Ha%elem_of_range_down)
             |(a & [= -> ->] & Ha%elem_of_range)]]]; lia.
  - intros Hp.
    destruct (decide (y = h)) as [->|].
    { left. exists x. split; [done|]. apply elem_of_range. lia. }
    destruct (decide (x = h)) as [->|].
    { right; left. exists y. split; [done|]. apply elem_of_range_down. lia. }
    destruct (decide (y = - h)) as [->|].
    { right; right; left. exists x. split; [done|]. apply elem_of_range_down. lia. }
    right; right; right. exists y. split; [f_equal; lia|]. apply elem_of_range. lia.
Qed.

(** ** The candidates of one level *)

Lemma main_possible_steps_elem edges obs steps i g cands g' c :
  Main.possible_steps edges obs steps i g = (Ok cands, g') → c ∈ cands →
  ∃ cur d, steps !! i = Some cur ∧ d ∈ Main.options ∧ c = Main.add cur d
           ∧ (c ∉ steps) ∧ (c ∉ Main.columns edges) ∧ (c ∉ obs).
Proof.
  unfold Main.possible_steps. destruct (steps !! i) as [cur|]; [|done].
  destruct (shuffle _ g) as [l g1] eqn:Hsh. intros [= <- <-] Hc.
  pose proof (shuffle_perm (filter (λ temp, (temp ∉ steps)
    ∧ (temp ∉ Main.columns edges) ∧ (temp ∉ obs)) (Main.add cur <$> Main.options)) g)
    as Hperm.
  rewrite Hsh in Hperm. cbn [fst] in Hperm. rewrite Hperm in Hc.
  apply list_elem_of_filter in Hc as [(? & ? & ?) (d & -> & Hd)%list_elem_of_fmap].
  exists cur, d. done.
Qed.

Lemma main_possible_steps_answers edges obs steps i g :
  (i < length steps)%nat →
  ∃ cands g', Main.possible_steps edges obs steps i g = (Ok cands, g').
Proof.
  intros [cur Hcur]%lookup_lt_is_Some. unfold Main.possible_steps. rewrite Hcur.
  destruct (shuffle _ g). eauto.
Qed.


Lemma threed_possible_steps_elem max obs steps i g cands g' c :
  ThreeD.possible_steps max obs steps i g = (Ok cands, g') → c ∈ cands →
  ∃ cur d, steps !! i = Some cur ∧ d ∈ ThreeD.options ∧ c = ThreeD.add cur d
           ∧ (c ∉ steps) ∧ inside3 max c ∧ (c ∉ obs).
Proof.
  unfold ThreeD.possible_steps. destruct (steps !! i) as [cur|]; [|done].
  destruct (shuffle _ g) as [l g1] eqn:Hsh. intros [= <- <-] Hc.
  pose proof (shuffle_perm (filter (λ temp : ThreeD.point, (temp ∉ steps)
    ∧ (Z.abs temp.1.1 < max ∧ Z.abs temp.1.2 < max ∧ Z.abs temp.2 < max)
    ∧ (temp ∉ obs)) (ThreeD.add cur <$> ThreeD.options)) g) as Hperm.
  rewrite Hsh in Hperm. cbn [fst] in Hperm. rewrite Hperm in Hc.
  apply list_elem_of_filter in Hc as [(? & ? & ?) (d & -> & Hd)%list_elem_of_fmap].
  exists cur, d. done.
Qed.

Lemma threed_possible_steps_answers max obs steps i g :
  (i < length steps)%nat →
  ∃ cands g', ThreeD.possible_steps max obs steps i g = (Ok cands, g').
Proof.
  intros [cur Hcur]%lookup_lt_is_Some. unfold ThreeD.possible_steps. rewrite Hcur.
  destruct (shuffle _ g). eauto.
Qed.


(** Every option is a single lattice step. *)
Lemma main_option_is_step cur d :
  d ∈ Main.options → unit_step2 cur (Main.add cur d).
Proof.
  unfold Main.options, unit_step2, Main.add. rewrite !elem_of_cons, elem_of_nil.
  intros [->|[->|[->|[->|[]]]]]; simpl; lia.
Qed.

Lemma threed_option_is_step cur d :
  d ∈ ThreeD.options → unit_step3 cur (ThreeD.add cur d).
Proof.
  unfold ThreeD.options, unit_step3, ThreeD.add. rewrite !elem_of_cons, elem_of_nil.
  intros [->|[->|[->|[->|[->|[->|[]]]]]]]; simpl; lia.
Qed.

(** One step from inside the box lands inside it or on the border ring. *)
Lemma main_step_stays_inside h cur c :
  inside2 h cur → unit_step2 cur c → c ∉ Main.columns (Main.border_of h) →
  inside2 h c.
Proof.
  rewrite main_elem_of_border. unfold inside2, unit_step2.
  destruct cur as [x y], c as [x' y']; simpl. lia.
Qed.

(** ** Properties of the walks returned by the search *)

Section MainWalk.
Variables (edges : list Z * list Z) (obs : list Main.point).
Variables (N : nat) (g g' : rng) (w : list Main.point).
Hypothesis returned :
  Main.avoid_walk edges obs (replicate N (0, 0)) 1 g = (Ok (Some w), g').

Lemma main_walk_length : length w = N.
Proof.
  eapply (avoid_walk_inv _ (λ _, True)) in returned; [by destruct returned|done..].
Qed.

Lemma main_walk_nodup : NoDup w.
Proof.
  eapply (avoid_walk_inv _ NoDup) in returned; [by destruct returned| |].
  - intros steps i ga cands gb c Hi Hps Hc Hph Hnd.
    destruct (main_possible_steps_elem _ _ _ _ _ _ _ _ Hps Hc)
      as (cur & d & _ & _ & _ & Hnew & _).
    apply NoDup_app. split_and!; [done| |apply NoDup_singleton].
    intros x Hx ->%list_elem_of_singleton.
    by eapply not_elem_of_prefix.
  - apply NoDup_singleton.
Qed.

Lemma main_walk_stepwise : stepwise (0, 0) unit_step2 w.
Proof.
  eapply (avoid_walk_inv _ (stepwise (0, 0) unit_step2)) in returned;
    [by destruct returned| |apply stepwise_singleton].
  intros steps i ga cands gb c Hi Hps Hc Hph Hst.
  destruct (main_possible_steps_elem _ _ _ _ _ _ _ _ Hps Hc)
    as (cur & d & Hcur & Hd & -> & _).
  eapply stepwise_snoc; [by apply last_of_prefix|done|].
  by apply main_option_is_step.
Qed.

Lemma main_walk_avoids_obstacles : (0, 0) ∉ obs → Forall (λ p, p ∉ obs) w.
Proof.
  intros Hfree.
  eapply (avoid_walk_inv _ (Forall (λ p, p ∉ obs))) in returned;
    [by destruct returned| |by apply Forall_singleton].
  intros steps i ga cands gb c Hi Hps Hc Hph Hall.
  destruct (main_possible_steps_elem _ _ _ _ _ _ _ _ Hps Hc)
    as (cur & d & _ & _ & _ & _ & _ & Hobs).
  apply Forall_app. split; [done|]. by apply Forall_singleton.
Qed.

Lemma main_walk_inside h :
  edges = Main.border_of h → 0 < h → Forall (inside2 h) w.
Proof.
  intros -> Hh.
  eapply (avoid_walk_inv _ (Forall (inside2 h))) in returned;
    [by destruct returned| |].
  - intros steps i ga cands gb c Hi Hps Hc Hph Hall.
    destruct (main_possible_steps_elem _ _ _ _ _ _ _ _ Hps Hc)
      as (cur & d & Hcur & Hd & -> & _ & Hedge & _).
    apply Forall_app. split; [done|]. apply Forall_singleton.
    eapply main_step_stays_inside; [|by apply main_option_is_step|done].
    rewrite Forall_forall in Hall. apply Hall. by apply prefix_elem.
  - apply Forall_singleton. unfold inside2. simpl. lia.
Qed.
End MainWalk.

Section ThreeDWalk.
Variables (max : Z) (obs : list ThreeD.point).
Variables (N : nat) (g g' : rng) (w : list ThreeD.point).
Hypothesis returned :
  ThreeD.avoid_walk max obs (replicate N (0, 0, 0)) 1 g = (Ok (Some w), g').

Lemma threed_walk_length : length w = N.
Proof.
  eapply (avoid_walk_inv _ (λ _, True)) in returned; [by destruct returned|done..].
Qed.

Lemma threed_walk_nodup : NoDup w.
Proof.
  eapply (avoid_walk_inv _ NoDup) in returned; [by destruct returned| |].
  - intros steps i ga cands gb c Hi Hps Hc Hph Hnd.
    destruct (threed_possible_steps_elem _ _ _ _ _ _ _ _ Hps Hc)
      as (cur & d & _ & _ & _ & Hnew & _).
    apply NoDup_app. split_and!; [done| |apply NoDup_singleton].
    intros x Hx ->%list_elem_of_singleton.
    by eapply not_elem_of_prefix.
  - apply NoDup_singleton.
Qed.

Lemma threed_walk_stepwise : stepwise (0, 0, 0) unit_step3 w.
Proof.
  eapply (avoid_walk_inv _ (stepwise (0, 0, 0) unit_step3)) in returned;
    [by destruct returned| |apply stepwise_singleton].
  intros steps i ga cands gb c Hi Hps Hc Hph Hst.
  destruct (threed_possible_steps_elem _ _ _ _ _ _ _ _ Hps Hc)
    as (cur & d & Hcur & Hd & -> & _).
  eapply stepwise_snoc; [by apply last_of_prefix|done|].
  by apply threed_option_is_step.
Qed.

Lemma threed_walk_avoids_obstacles : (0, 0, 0) ∉ obs → Forall (λ p, p ∉ obs) w.
Proof.
  intros Hfree.
  eapply (avoid_walk_inv _ (Forall (λ p, p ∉ obs))) in returned;
    [by destruct returned| |by apply Forall_singleton].
  intros steps i ga cands gb c Hi Hps Hc Hph Hall.
  destruct (threed_possible_steps_elem _ _ _ _ _ _ _ _ Hps Hc)
    as (cur & d & _ & _ & _ & _ & _ & Hobs).
  apply Forall_app. split; [done|]. by apply Forall_singleton.
Qed.

Lemma threed_walk_inside : 0 < max → Forall (inside3 max) w.
Proof.
  intros Hh.
  eapply (avoid_walk_inv _ (Forall (inside3 max))) in returned;
    [by destruct returned| |].
  - intros steps i ga cands gb c Hi Hps Hc Hph Hall.
    destruct (threed_possible_steps_elem _ _ _ _ _ _ _ _ Hps Hc)
      as (cur & d & _ & _ & _ & _ & Hin & _).
    apply Forall_app. split; [done|]. by apply Forall_singleton.
  - apply Forall_singleton. unfold inside3. simpl. lia.
Qed.
End ThreeDWalk.

(** ** The region bound *)

Lemma py_round_nearest (n : Z) (d : positive) :
  let h := py_round (n # d) in
  2 * Z.abs (Z.pos d * h - n) ≤ Z.pos d
  ∧ (2 * Z.abs (Z.pos d * h - n) = Z.pos d → Z.even h = true).
Proof.
  unfold py_round. cbn [Qnum Qden].
  pose proof (Z.div_mod n (Z.pos d) ltac:(lia)) as Hdm.
  pose proof (Z.mod_pos_bound n (Z.pos d) ltac:(lia)) as Hmod.
  set (fl := n / Z.pos d) in *. set (m := n mod Z.pos d) in *.
  clearbody fl m.
  repeat case_decide; [split; [lia|lia] | split; [lia|lia] | ].
  destruct (Z.even fl) eqn:Heven; (split; [lia|]); [done|].
  intros _. rewrite Z.even_add, Heven. done.
Qed.

Lemma seven_eighths (r : Z) :
  (inject_Z r * (7 # 4) / inject_Z 2)%Q = (7 * r) # 8.
Proof.
  change ((inject_Z r * (7 # 4) / inject_Z 2)%Q) with ((r * 7 * 1) # 8).
  f_equal. lia.
Qed.

Lemma py_round_seven_eighths (r : Z) :
  nearest_eighth (7 * r) (py_round (inject_Z r * (7 # 4) / inject_Z 2)%Q).
Proof.
  rewrite seven_eighths. pose proof (py_round_nearest (7 * r) 8) as [H1 H2].
  unfold nearest_eighth. split; [lia|]. intros H. apply H2. lia.
Qed.

Lemma round_sqrt_nearest (n : Z) : 0 < n → nearest_root 2 n (round_sqrt n).
Proof.
  intros Hn. unfold nearest_root, round_sqrt.
  pose proof (Z.sqrt_spec n ltac:(lia)) as Hs.
  pose proof (Z.sqrt_pos n) as Hpos.
  cbv zeta in Hs. set (s := Z.sqrt n) in *. clearbody s. change (2 ^ 2) with 4.
  assert (0 < s) by lia. unfold Z.succ in Hs.
  case_decide; rewrite !Z.pow_2_r; nia.
Qed.

Lemma cbrt_floor_from_spec (fuel : nat) (c n : Z) :
  0 ≤ c → c ^ 3 ≤ n → n - c ≤ Z.of_nat fuel →
  let r := cbrt_floor_from fuel c n in 0 ≤ r ∧ r ^ 3 ≤ n < (r + 1) ^ 3.
Proof.
  revert c. induction fuel as [|fuel IH]; intros c Hc Hle Hfuel; simpl.
  - split; [done|]. split; [done|].
    replace ((c + 1) ^ 3) with (c * c * c + 3 * c * c + 3 * c + 1) by ring. nia.
  - case_decide as Hnext.
    + apply IH; [lia|done|].
      assert (c + 1 ≤ (c + 1) ^ 3); [|lia].
      replace ((c + 1) ^ 3) with ((c + 1) * ((c + 1) * (c + 1))) by ring. nia.
    + split; [done|]. lia.
Qed.

Lemma cbrt_floor_spec (n : Z) :
  0 ≤ n → 0 ≤ cbrt_floor n ∧ cbrt_floor n ^ 3 ≤ n < (cbrt_floor n + 1) ^ 3.
Proof.
  intros Hn. apply cbrt_floor_from_spec; [done| |lia].
  by change (0 ^ 3) with 0.
Qed.

Lemma round_cbrt_nearest (n : Z) : 0 < n → nearest_root 3 n (round_cbrt n).
Proof.
  intros Hn. unfold nearest_root, round_cbrt.
  pose proof (cbrt_floor_spec n ltac:(lia)) as (Hc & Hlo & Hhi).
  set (c := cbrt_floor n) in *. clearbody c. change (2 ^ 3) with 8.
  replace (c ^ 3) with (c * c * c) in Hlo by ring.
  replace ((c + 1) ^ 3) with (c * c * c + 3 * (c * c) + 3 * c + 1) in Hhi by ring.
  case_decide as Hcmp.
  - replace ((2 * c + 1) ^ 3) with (8 * (c * c * c) + 12 * (c * c) + 6 * c + 1)
      in * by ring.
    replace ((2 * c - 1) ^ 3) with (8 * (c * c * c) - 12 * (c * c) + 6 * c - 1)
      by ring.
    split; [done|]. split; [nia|done].
  - replace (2 * (c + 1) - 1) with (2 * c + 1) by lia.
    replace ((2 * (c + 1) + 1) ^ 3)
      with (8 * (c * c * c) + 36 * (c * c) + 54 * c + 27) by ring.
    replace ((2 * c + 1) ^ 3) with (8 * (c * c * c) + 12 * (c * c) + 6 * c + 1)
      in * by ring.
    split; [lia|]. split; [lia|nia].
Qed.

Lemma nearest_root_positive d n r : 0 < d → 0 < n → nearest_root d n r → 1 ≤ r.
Proof.
  intros Hd Hn [Hr [_ Hhi]]. destruct (decide (r = 0)) as [->|]; [|lia].
  rewrite Z.mul_0_r, Z.add_0_l, Z.pow_1_l in Hhi by lia.
  pose proof (Z.pow_pos_nonneg 2 d ltac:(lia) ltac:(lia)). nia.
Qed.

Lemma nearest_eighth_positive r h : 1 ≤ r → nearest_eighth (7 * r) h → 1 ≤ h.
Proof. intros Hr [H _]. lia. Qed.

Lemma main_h_length_rounds (size : nat) :
  (0 < size)%nat →
  ∃ r, nearest_root 2 (Z.of_nat size) r ∧ nearest_eighth (7 * r) (Main.h_length size).
Proof.
  intros Hs. exists (round_sqrt (Z.of_nat size)). split.
  - apply round_sqrt_nearest. lia.
  - apply py_round_seven_eighths.
Qed.

Lemma threed_set_max_rounds (size : nat) :
  (0 < size)%nat →
  ∃ r, nearest_root 3 (Z.of_nat size) r ∧ nearest_eighth (7 * r) (ThreeD.set_max size).
Proof.
  intros Hs. exists (round_cbrt (Z.of_nat size)). split.
  - apply round_cbrt_nearest. lia.
  - apply py_round_seven_eighths.
Qed.

Lemma main_h_length_positive (size : nat) : (0 < size)%nat → 1 ≤ Main.h_length size.
Proof.
  intros Hs. destruct (main_h_length_rounds size Hs) as (r & Hr & Hh).
  eapply nearest_eighth_positive; [|done].
  eapply nearest_root_positive; [| |done]; lia.
Qed.

Lemma threed_set_max_positive (size : nat) : (0 < size)%nat → 1 ≤ ThreeD.set_max size.
Proof.
  intros Hs. destruct (threed_set_max_rounds size Hs) as (r & Hr & Hh).
  eapply nearest_eighth_positive; [|done].
  eapply nearest_root_positive; [| |done]; lia.
Qed.

(** The definitions of [Spec] do compute the nearest integer to 1.75 times
    the root, as the sentence of the specification asks. *)
Lemma spec_side_length_2d_nearest (n : Z) :
  0 < n →
  let l := Spec.side_length_2d n in
  0 ≤ l ∧ 4 * (2 * l - 1) ^ 2 ≤ 49 * n ≤ 4 * (2 * l + 1) ^ 2.
Proof.
  intros Hn. unfold Spec.side_length_2d.
  pose proof (Z.sqrt_spec (49 * n / 16) ltac:(apply Z.div_pos; lia)) as Hs.
  pose proof (Z.sqrt_nonneg (49 * n / 16)) as Hpos.
  pose proof (Z.div_mod (49 * n) 16 ltac:(lia)) as Hdm.
  pose proof (Z.mod_pos_bound (49 * n) 16 ltac:(lia)) as Hmod.
  cbv zeta in *. unfold Z.succ in Hs.
  set (f := Z.sqrt (49 * n / 16)) in *. clearbody f.
  set (q := 49 * n / 16) in *. clearbody q.
  rewrite !Z.pow_2_r. repeat case_decide; rewrite ?Z.pow_2_r in *;
    try destruct (Z.even f); nia.
Qed.

Lemma spec_side_length_3d_nearest (n : Z) :
  0 < n →
  let l := Spec.side_length_3d n in
  0 ≤ l ∧ 8 * (2 * l - 1) ^ 3 ≤ 343 * n ≤ 8 * (2 * l + 1) ^ 3.
Proof.
  intros Hn. unfold Spec.side_length_3d.
  pose proof (cbrt_floor_spec (343 * n / 64) ltac:(apply Z.div_pos; lia))
    as (Hpos & Hlo & Hhi).
  pose proof (Z.div_mod (343 * n) 64 ltac:(lia)) as Hdm.
  pose proof (Z.mod_pos_bound (343 * n) 64 ltac:(lia)) as Hmod.
  cbv zeta.
  set (f := cbrt_floor (343 * n / 64)) in *. clearbody f.
  set (q := 343 * n / 64) in *. clearbody q.
  replace (f ^ 3) with (f * f * f) in Hlo by ring.
  replace ((f + 1) ^ 3) with (f * f * f + 3 * (f * f) + 3 * f + 1) in Hhi by ring.
  replace ((2 * f + 1) ^ 3) with (8 * (f * f * f) + 12 * (f * f) + 6 * f + 1)
    by ring.
  assert (∀ l, (2 * l - 1) ^ 3 = 8 * (l * l * l) - 12 * (l * l) + 6 * l - 1)
    as Hm by (intros; ring).
  assert (∀ l, (2 * l + 1) ^ 3 = 8 * (l * l * l) + 12 * (l * l) + 6 * l + 1)
    as Hp by (intros; ring).
  repeat case_decide; try destruct (Z.even f); rewrite Hm, Hp;
    (split; [lia|]); nia.
Qed.

(** ** The obstacle placer *)

Lemma main_border_first (h : Z) :
  (Main.border_of h).1 !! 0%nat = if decide (0 ≤ h) then Some (- h) else None.
Proof.
  unfold Main.border_of. cbn [fst]. case_decide.
  - rewrite lookup_app_l.
    + unfold range. rewrite lookup_seqZ_lt by lia. f_equal. lia.
    + unfold range. rewrite length_seqZ. lia.
  - unfold range, range_down. rewrite !seqZ_nil by lia. done.
Qed.

(** With a half-width below 2 the range [-h .. h - 4] is empty and the first
    draw already fails; below 0 the border itself has no first entry. *)
Lemma main_placement_raises depth (h : Z) g :
  h < 2 →
  Main.random_obstacle_placement depth (Main.border_of h) g
  = (Exn (if decide (0 ≤ h) then ValueError else IndexError), g).
Proof.
  intros Hh. destruct depth; cbn [Main.random_obstacle_placement];
    rewrite main_border_first;
    (case_decide; [|done]); by rewrite randint_empty by lia.
Qed.

Lemma threed_placement_raises depth (max : Z) g :
  max < 2 → ThreeD.random_obstacle_placement depth max g = (Exn ValueError, g).
Proof.
  intros Hh.
  destruct depth; cbn [ThreeD.random_obstacle_placement]; by rewrite randint_empty by lia.
Qed.

Lemma main_generate_raises depth (h n : Z) self g :
  h < 2 → 1 ≤ n →
  Main.generate_obstacles depth (Main.border_of h) n self g
  = (Exn (if decide (0 ≤ h) then ValueError else IndexError), g).
Proof.
  intros Hh Hn. unfold Main.generate_obstacles. destruct self as [obstacles pts].
  rewrite decide_True by lia.
  destruct (Z.to_nat n) as [|k] eqn:Hk; [lia|]. cbn [Main.place_blocks].
  by rewrite main_placement_raises.
Qed.

Lemma threed_generate_raises depth (max n : Z) self g :
  max < 2 → 1 ≤ n →
  ThreeD.generate_obstacles depth max n self g = (Exn ValueError, g).
Proof.
  intros Hh Hn. unfold ThreeD.generate_obstacles. destruct self as [obstacles pts].
  rewrite decide_True by lia.
  destruct (Z.to_nat n) as [|k] eqn:Hk; [lia|]. cbn [ThreeD.place_blocks].
  by rewrite threed_placement_raises.
Qed.

(** An accepted placement origin fails the blocking test. *)
Lemma main_placement_accepted depth border g origin g' :
  Main.random_obstacle_placement depth border g = (Ok origin, g') →
  ¬ Main.blocks_origin origin.
Proof.
  revert g. induction depth as [|depth IH]; intros g; simpl;
    destruct (border.1 !! 0%nat) as [b00|]; try done;
    destruct (randint _ _ g) as [[x| |] g1]; try done;
    destruct (randint _ _ g1) as [[y| |] g2]; try done;
    case_decide; try done; try (by intros [= <- <-]).
  apply IH.
Qed.

Lemma threed_placement_accepted depth max g origin g' :
  ThreeD.random_obstacle_placement depth max g = (Ok origin, g') →
  ¬ ThreeD.blocks_origin origin.
Proof.
  revert g. induction depth as [|depth IH]; intros g; simpl;
    destruct (randint _ _ g) as [[x| |] g1]; try done;
    destruct (randint _ _ g1) as [[y| |] g2]; try done;
    destruct (randint _ _ g2) as [[z| |] g3]; try done;
    case_decide; try done; try (by intros [= <- <-]).
  apply IH.
Qed.

(** The cells of a block: the 4 x 4 (x 4) offsets added to its origin. *)
Lemma main_block_columns (origin : Main.point) :
  Main.columns (Main.block origin)
  = j ← range 0 4; k ← range 0 4; [(j + origin.1, k + origin.2)].
Proof. reflexivity. Qed.

Lemma threed_block_columns (origin : ThreeD.point) :
  ThreeD.columns (ThreeD.block origin)
  = j ← range 0 4; k ← range 0 4; l ← range 0 4;
    [(j + origin.1.1, k + origin.1.2, l + origin.2)].
Proof. reflexivity. Qed.

Lemma main_elem_of_block (origin p : Main.point) :
  p ∈ Main.columns (Main.block origin) ↔
    (origin.1 ≤ p.1 < origin.1 + 4) ∧ (origin.2 ≤ p.2 < origin.2 + 4).
Proof.
  rewrite main_block_columns. destruct p as [x y]. cbn [fst snd]. split.
  - intros (j & (k & [= -> ->]%list_elem_of_singleton & Hk%elem_of_range)%list_elem_of_bind
              & Hj%elem_of_range)%list_elem_of_bind.
    lia.
  - intros [Hx Hy]. apply list_elem_of_bind. exists (x - origin.1).
    split; [|apply elem_of_range; lia].
    apply list_elem_of_bind. exists (y - origin.2).
    split; [|apply elem_of_range; lia].
    apply list_elem_of_singleton. f_equal; lia.
Qed.

Lemma threed_elem_of_block (origin p : ThreeD.point) :
  p ∈ ThreeD.columns (ThreeD.block origin) ↔
    (origin.1.1 ≤ p.1.1 < origin.1.1 + 4) ∧ (origin.1.2 ≤ p.1.2 < origin.1.2 + 4)
    ∧ (origin.2 ≤ p.2 < origin.2 + 4).
Proof.
  rewrite threed_block_columns. destruct p as [[x y] z]. cbn [fst snd]. split.
  - intros (j & (k & (l & [= -> -> ->]%list_elem_of_singleton & Hl%elem_of_range)%list_elem_of_bind
                    & Hk%elem_of_range)%list_elem_of_bind
              & Hj%elem_of_range)%list_elem_of_bind.
    lia.
  - intros (Hx & Hy & Hz). apply list_elem_of_bind. exists (x - origin.1.1).
    split; [|apply elem_of_range; lia].
    apply list_elem_of_bind. exists (y - origin.1.2).
    split; [|apply elem_of_range; lia].
    apply list_elem_of_bind. exists (z - origin.2).
    split; [|apply elem_of_range; lia].
    apply list_elem_of_singleton. repeat f_equal; lia.
Qed.

(** A block covers the origin cell only when anchored in [-3 .. 0] on every
    axis, which the blocking test rejects. *)
Lemma main_block_covers_origin (origin : Main.point) :
  (0, 0) ∈ Main.columns (Main.block origin) ↔
    (-3 ≤ origin.1 ≤ 0) ∧ (-3 ≤ origin.2 ≤ 0).
Proof. rewrite main_elem_of_block. cbn [fst snd]. lia. Qed.

Lemma threed_block_covers_origin (origin : ThreeD.point) :
  (0, 0, 0) ∈ ThreeD.columns (ThreeD.block origin) ↔
    (-3 ≤ origin.1.1 ≤ 0) ∧ (-3 ≤ origin.1.2 ≤ 0) ∧ (-3 ≤ origin.2 ≤ 0).
Proof. rewrite threed_elem_of_block. cbn [fst snd]. lia. Qed.

Lemma main_place_blocks_placed n depth border obstacles g obstacles' g' :
  Forall main_placed obstacles →
  Main.place_blocks n depth border obstacles g = (Ok obstacles', g') →
  Forall main_placed obstacles'.
Proof.
  revert obstacles g. induction n as [|n IH]; intros obstacles g Hall; simpl.
  - by intros [= <- _].
  - destruct (Main.random_obstacle_placement depth border g)
      as [[origin| |] g1] eqn:Hplace; try done.
    apply IH. apply Forall_app. split; [done|]. apply Forall_singleton.
    exists origin. split; [done|]. by eapply main_placement_accepted.
Qed.

Lemma threed_place_blocks_placed n depth max obstacles g obstacles' g' :
  Forall threed_placed obstacles →
  ThreeD.place_blocks n depth max obstacles g = (Ok obstacles', g') →
  Forall threed_placed obstacles'.
Proof.
  revert obstacles g. induction n as [|n IH]; intros obstacles g Hall; simpl.
  - by intros [= <- _].
  - destruct (ThreeD.random_obstacle_placement depth max g)
      as [[origin| |] g1] eqn:Hplace; try done.
    apply IH. apply Forall_app. split; [done|]. apply Forall_singleton.
    exists origin. split; [done|]. by eapply threed_placement_accepted.
Qed.

Lemma main_generate_placed depth border n g obstacles obs_points g' :
  Main.generate_obstacles depth border n ([], []) g = (Ok (obstacles, obs_points), g') →
  Forall main_placed obstacles ∧ obs_points = (ob ← obstacles; Main.columns ob).
Proof.
  unfold Main.generate_obstacles. case_decide.
  - destruct (Main.place_blocks _ _ _ _ _) as [[obstacles'| |] g1] eqn:Hplace;
      try done.
    intros [= <- <- _]. split; [|done].
    by eapply main_place_blocks_placed.
  - by intros [= <- <- _].
Qed.

Lemma threed_generate_placed depth max n g obstacles obs_points g' :
  ThreeD.generate_obstacles depth max n ([], []) g = (Ok (obstacles, obs_points), g') →
  Forall threed_placed obstacles ∧ obs_points = (ob ← obstacles; ThreeD.columns ob).
Proof.
  unfold ThreeD.generate_obstacles. case_decide.
  - destruct (ThreeD.place_blocks _ _ _ _ _) as [[obstacles'| |] g1] eqn:Hplace;
      try done.
    intros [= <- <- _]. split; [|done].
    by eapply threed_place_blocks_placed.
  - by intros [= <- <- _].
Qed.

Lemma main_placed_origin_free obstacles :
  Forall main_placed obstacles → (0, 0) ∉ (ob ← obstacles; Main.columns ob).
Proof.
  intros Hall (ob & Hin & Hob)%list_elem_of_bind.
  rewrite Forall_forall in Hall. destruct (Hall ob Hob) as (origin & -> & Hfree).
  apply main_block_covers_origin in Hin. apply Hfree.
  unfold Main.blocks_origin. lia.
Qed.

Lemma threed_placed_origin_free obstacles :
  Forall threed_placed obstacles → (0, 0, 0) ∉ (ob ← obstacles; ThreeD.columns ob).
Proof.
  intros Hall (ob & Hin & Hob)%list_elem_of_bind.
  rewrite Forall_forall in Hall. destruct (Hall ob Hob) as (origin & -> & Hfree).
  apply threed_block_covers_origin in Hin. apply Hfree.
  unfold ThreeD.blocks_origin. lia.
Qed.

Lemma main_generated_origin_free depth border n g obstacles obs_points g' :
  Main.generate_obstacles depth border n ([], []) g = (Ok (obstacles, obs_points), g') →
  (0, 0) ∉ obs_points.
Proof.
  intros [Hall ->]%main_generate_placed. by apply main_placed_origin_free.
Qed.

Lemma threed_generated_origin_free depth max n g obstacles obs_points g' :
  ThreeD.generate_obstacles depth max n ([], []) g = (Ok (obstacles, obs_points), g') →
  (0, 0, 0) ∉ obs_points.
Proof.
  intros [Hall ->]%threed_generate_placed. by apply threed_placed_origin_free.
Qed.

(** ** Dead ends *)

Lemma filter_none {A} (P : A → Prop) `{∀ x, Decision (P x)} (l : list A) :
  (∀ x, x ∈ l → ¬ P x) → filter P l = [].
Proof.
  induction l as [|x l IH]; intros Hall; [done|].
  rewrite filter_cons_False by (apply Hall; left).
  apply IH. intros y Hy. apply Hall. by right.
Qed.

Lemma main_possible_steps_none edges obs steps i g cur :
  steps !! i = Some cur →
  (∀ d, d ∈ Main.options → Main.add cur d ∈ Main.columns edges) →
  Main.possible_steps edges obs steps i g = (Ok [], g).
Proof.
  intros Hcur Hedge. unfold Main.possible_steps. rewrite Hcur.
  rewrite filter_none; [done|].
  intros c (d & -> & Hd)%list_elem_of_fmap (_ & Hout & _). by apply Hout, Hedge.
Qed.

Lemma threed_possible_steps_none max obs steps i g cur :
  steps !! i = Some cur →
  (∀ d, d ∈ ThreeD.options → ¬ inside3 max (ThreeD.add cur d)) →
  ThreeD.possible_steps max obs steps i g = (Ok [], g).
Proof.
  intros Hcur Hedge. unfold ThreeD.possible_steps. rewrite Hcur.
  rewrite filter_none; [done|].
  intros c (d & -> & Hd)%list_elem_of_fmap (_ & Hin & _). by apply (Hedge d).
Qed.

(** In a region of half-width 1 the origin has no legal neighbour. *)
Lemma main_dead_end_bound_one obs (N : nat) g :
  (2 ≤ N)%nat →
  Main.avoid_walk (Main.border_of 1) obs (replicate N (0, 0)) 1 g = (Ok None, g).
Proof.
  intros HN. unfold Main.avoid_walk, avoid_walk. rewrite length_replicate.
  cbn [avoid_walk_fuel]. rewrite length_replicate, decide_False by lia.
  rewrite (main_possible_steps_none _ _ _ _ _ (0, 0)); [done|by apply lookup_replicate_2|].
  intros d Hd. apply main_elem_of_border. revert Hd.
  unfold Main.options, Main.add. rewrite !elem_of_cons, elem_of_nil.
  intros [->|[->|[->|[->|[]]]]]; simpl; lia.
Qed.

Lemma threed_dead_end_bound_one obs (N : nat) g :
  (2 ≤ N)%nat →
  ThreeD.avoid_walk 1 obs (replicate N (0, 0, 0)) 1 g = (Ok None, g).
Proof.
  intros HN. unfold ThreeD.avoid_walk, avoid_walk. rewrite length_replicate.
  cbn [avoid_walk_fuel]. rewrite length_replicate, decide_False by lia.
  rewrite (threed_possible_steps_none _ _ _ _ _ (0, 0, 0));
    [done|by apply lookup_replicate_2|].
  intros d Hd. unfold inside3. revert Hd.
  unfold ThreeD.options, ThreeD.add. rewrite !elem_of_cons, elem_of_nil.
  intros [->|[->|[->|[->|[->|[->|[]]]]]]]; simpl; lia.
Qed.

(** A buffer of one slot is returned as it is. *)
Lemma avoid_walk_one_slot {P} (possible_steps : list P → nat → rng → result (list P) * rng)
    (origin : P) g :
  avoid_walk possible_steps [origin] 1 g = (Ok (Some [origin]), g).
Proof. done. Qed.

(** With a computed bound below 2 the constructor stops in the placer. *)
Lemma main_rand_avoid_raises depth size g_py g_np :
  Main.h_length size < 2 → 0 ≤ Main.h_length size →
  Main.rand_avoid depth size g_py g_np = Exn ValueError.
Proof.
  intros Hh H0. unfold Main.rand_avoid, Main.border.
  rewrite main_generate_raises by lia. by rewrite decide_True.
Qed.

Lemma threed_rand_avoid_raises depth size g_py g_np :
  ThreeD.set_max size < 2 → ThreeD.rand_avoid depth size g_py g_np = Exn ValueError.
Proof.
  intros Hh. unfold ThreeD.rand_avoid. by rewrite threed_generate_raises by lia.
Qed.

(** * The properties of the specification, C1 to C10 *)

(** C1. Every walk returned by the search, in main.py and in 3d.py, has
    pairwise distinct points: no lattice point occupies two indices of the
    returned buffer, although the buffer starts all zero and slot [i + 1] is
    seeded with a copy of slot [i] before each recursive call. *)
Theorem returned_walk_points_distinct :
  (∀ edges obs (N : nat) g w g',
     Main.avoid_walk edges obs (replicate N (0, 0)) 1 g = (Ok (Some w), g') →
     NoDup w)
  ∧ (∀ max obs (N : nat) g w g',
       ThreeD.avoid_walk max obs (replicate N (0, 0, 0)) 1 g = (Ok (Some w), g') →
       NoDup w).
Proof.
  split; intros.
  - by eapply main_walk_nodup.
  - by eapply threed_walk_nodup.
Qed.

Lemma returned_walk_points_distinct_witness :
  (Main.avoid_walk (Main.border 4) [] (replicate 4 (0, 0)) 1 []
   = (Ok (Some [(0, 0); (0, 1); (1, 1); (1, 0)]), [])
   ∧ NoDup [(0, 0); (0, 1); (1, 1); (1, 0)])
  ∧ (ThreeD.avoid_walk (ThreeD.set_max 4) [] (replicate 4 (0, 0, 0)) 1 []
     = (Ok (Some [(0, 0, 0); (0, 0, 1); (0, 1, 1); (0, 1, 0)]), [])
     ∧ NoDup [(0, 0, 0); (0, 0, 1); (0, 1, 1); (0, 1, 0)]).
Proof.
  split; (split; [vm_compute; reflexivity|]).
  - eapply (proj1 returned_walk_points_distinct (Main.border 4) [] 4%nat []).
    vm_compute; reflexivity.
  - eapply (proj2 returned_walk_points_distinct (ThreeD.set_max 4) [] 4%nat []).
    vm_compute; reflexivity.
Defined.

(** C2. Every point of a walk returned by the search lies strictly inside
    the region of the computed half-width [H], that is [|coordinate| < H] on
    every axis: in 3d.py by the comparison in [possible_steps], in main.py
    because the border list is the whole ring at distance [H] and a unit step
    from inside cannot jump over it. *)
Theorem returned_walk_inside_region :
  (∀ (size : nat) obs g w g',
     Main.avoid_walk (Main.border size) obs (replicate size (0, 0)) 1 g
     = (Ok (Some w), g') →
     Forall (inside2 (Main.h_length size)) w)
  ∧ (∀ (size : nat) obs g w g',
       ThreeD.avoid_walk (ThreeD.set_max size) obs (replicate size (0, 0, 0)) 1 g
       = (Ok (Some w), g') →
       Forall (inside3 (ThreeD.set_max size)) w).
Proof.
  split; intros size obs g w g' Hrun.
  - destruct size as [|size].
    + apply main_walk_length in Hrun. by destruct w.
    + eapply main_walk_inside; [done..|].
      pose proof (main_h_length_positive (S size)). lia.
  - destruct size as [|size].
    + apply threed_walk_length in Hrun. by destruct w.
    + eapply threed_walk_inside; [done|].
      pose proof (threed_set_max_positive (S size)). lia.
Qed.

Lemma returned_walk_inside_region_witness :
  (Main.avoid_walk (Main.border 4) [] (replicate 4 (0, 0)) 1 []
   = (Ok (Some [(0, 0); (0, 1); (1, 1); (1, 0)]), [])
   ∧ Forall (inside2 (Main.h_length 4)) [(0, 0); (0, 1); (1, 1); (1, 0)])
  ∧ (ThreeD.avoid_walk (ThreeD.set_max 4) [] (replicate 4 (0, 0, 0)) 1 []
     = (Ok (Some [(0, 0, 0); (0, 0, 1); (0, 1, 1); (0, 1, 0)]), [])
     ∧ Forall (inside3 (ThreeD.set_max 4)) [(0, 0, 0); (0, 0, 1); (0, 1, 1); (0, 1, 0)]).
Proof.
  split; (split; [vm_compute; reflexivity|]).
  - eapply (proj1 returned_walk_inside_region 4%nat [] []).
    vm_compute; reflexivity.
  - eapply (proj2 returned_walk_inside_region 4%nat [] []).
    vm_compute; reflexivity.
Defined.

(** C3. No point of a walk returned by the search belongs to the
    occupied-cell set that [generate_obstacles] materialised, on a fresh
    object, before the search began. *)
Theorem returned_walk_avoids_obstacles :
  (∀ depth border n g_py obstacles obs_points g_py' edges (N : nat) g w g',
     Main.generate_obstacles depth border n ([], []) g_py
     = (Ok (obstacles, obs_points), g_py') →
     Main.avoid_walk edges obs_points (replicate N (0, 0)) 1 g = (Ok (Some w), g') →
     ∀ p, p ∈ w → p ∉ obs_points)
  ∧ (∀ depth bound n g_py obstacles obs_points g_py' max (N : nat) g w g',
       ThreeD.generate_obstacles depth bound n ([], []) g_py
       = (Ok (obstacles, obs_points), g_py') →
       ThreeD.avoid_walk max obs_points (replicate N (0, 0, 0)) 1 g = (Ok (Some w), g') →
       ∀ p, p ∈ w → p ∉ obs_points).
Proof.
  split.
  - intros depth border n g_py obstacles obs_points g_py' edges N g w g' Hgen Hrun.
    apply Forall_forall. eapply main_walk_avoids_obstacles; [done|].
    by eapply main_generated_origin_free.
  - intros depth bound n g_py obstacles obs_points g_py' max N g w g' Hgen Hrun.
    apply Forall_forall. eapply threed_walk_avoids_obstacles; [done|].
    by eapply threed_generated_origin_free.
Qed.

Lemma returned_walk_avoids_obstacles_witness :
  (Main.generate_obstacles 0 (Main.border_of 5) 1 ([], []) [6; 0]%nat
   = (Ok ([Main.block (1, -5)], Main.columns (Main.block (1, -5))), [])
   ∧ Main.avoid_walk (Main.border_of 5) (Main.columns (Main.block (1, -5)))
       (replicate 4 (0, 0)) 1 []
     = (Ok (Some [(0, 0); (0, 1); (0, 2); (0, 3)]), [])
   ∧ (0, 3) ∉ Main.columns (Main.block (1, -5)))
  ∧ (ThreeD.generate_obstacles 0 5 1 ([], []) [6; 0; 0]%nat
     = (Ok ([ThreeD.block (1, -5, -5)], ThreeD.columns (ThreeD.block (1, -5, -5))), [])
     ∧ ThreeD.avoid_walk 5 (ThreeD.columns (ThreeD.block (1, -5, -5)))
         (replicate 4 (0, 0, 0)) 1 []
       = (Ok (Some [(0, 0, 0); (0, 0, 1); (0, 0, 2); (0, 0, 3)]), [])
     ∧ (0, 0, 3) ∉ ThreeD.columns (ThreeD.block (1, -5, -5))).
Proof.
  split; (split; [vm_compute; reflexivity|split; [vm_compute; reflexivity|]]).
  - eapply (proj1 returned_walk_avoids_obstacles 0%nat (Main.border_of 5) 1
              [6; 0]%nat _ _ [] (Main.border_of 5) 4%nat [] _ []).
    + vm_compute; reflexivity.
    + vm_compute; reflexivity.
    + vm_compute. do 3 right. left.
  - eapply (proj2 returned_walk_avoids_obstacles 0%nat 5 1
              [6; 0; 0]%nat _ _ [] 5 4%nat [] _ []).
    + vm_compute; reflexivity.
    + vm_compute; reflexivity.
    + vm_compute. do 3 right. left.
Defined.

(** C4. Every walk returned by the search has exactly [N] points, starts at
    the all-zero origin, and moves by one unit along exactly one axis between
    consecutive points, in both scripts. *)
Theorem returned_walk_is_lattice_path :
  (∀ edges obs (N : nat) g w g',
     Main.avoid_walk edges obs (replicate N (0, 0)) 1 g = (Ok (Some w), g') →
     length w = N ∧ stepwise (0, 0) unit_step2 w)
  ∧ (∀ max obs (N : nat) g w g',
       ThreeD.avoid_walk max obs (replicate N (0, 0, 0)) 1 g = (Ok (Some w), g') →
       length w = N ∧ stepwise (0, 0, 0) unit_step3 w).
Proof.
  split; intros; split.
  - by eapply main_walk_length.
  - by eapply main_walk_stepwise.
  - by eapply threed_walk_length.
  - by eapply threed_walk_stepwise.
Qed.

Lemma returned_walk_is_lattice_path_witness :
  (Main.avoid_walk (Main.border 4) [] (replicate 4 (0, 0)) 1 []
   = (Ok (Some [(0, 0); (0, 1); (1, 1); (1, 0)]), [])
   ∧ length [(0, 0); (0, 1); (1, 1); (1, 0)] = 4%nat
   ∧ stepwise (0, 0) unit_step2 [(0, 0); (0, 1); (1, 1); (1, 0)])
  ∧ (ThreeD.avoid_walk (ThreeD.set_max 4) [] (replicate 4 (0, 0, 0)) 1 []
     = (Ok (Some [(0, 0, 0); (0, 0, 1); (0, 1, 1); (0, 1, 0)]), [])
     ∧ length [(0, 0, 0); (0, 0, 1); (0, 1, 1); (0, 1, 0)] = 4%nat
     ∧ stepwise (0, 0, 0) unit_step3 [(0, 0, 0); (0, 0, 1); (0, 1, 1); (0, 1, 0)]).
Proof.
  split; (split; [vm_compute; reflexivity|]).
  - eapply (proj1 returned_walk_is_lattice_path (Main.border 4) [] 4%nat []).
    vm_compute; reflexivity.
  - eapply (proj2 returned_walk_is_lattice_path (ThreeD.set_max 4) [] 4%nat []).
    vm_compute; reflexivity.
Defined.

(** *** The search under a recursion budget *)

(** A walk comes back only from the innermost call, one level per slot. *)
Lemma avoid_walk_fuel_depth {P}
    (possible_steps : list P → nat → rng → result (list P) * rng)
    fuel steps i g w g' :
  avoid_walk_fuel possible_steps fuel steps i g = (Ok (Some w), g') →
  (i ≤ length steps)%nat ∧ (length steps - i < fuel)%nat.
Proof.
  revert steps i g. induction fuel as [|fuel IH]; intros steps i g; [done|].
  simpl. case_decide as Hlen; [intros _; lia|].
  destruct (possible_steps steps i g) as [[cands| |] g1]; try done.
  case_decide; [done|].
  intros (j & ga & _ & Hrec%IH)%try_each_Some.
  rewrite length_commit in Hrec. lia.
Qed.

Lemma avoid_walk_fuel_inv_origin {P}
    (possible_steps : list P → nat → rng → result (list P) * rng)
    (Inv : list P → Prop) (origin : P) (N fuel : nat) g w g' :
  (∀ steps i g cands g' c,
     (0 < i < length steps)%nat →
     possible_steps steps i g = (Ok cands, g') → c ∈ cands →
     steps !! i = steps !! (i - 1)%nat →
     Inv (take i steps) → Inv (take i steps ++ [c])) →
  Inv [origin] →
  avoid_walk_fuel possible_steps fuel (replicate N origin) 1 g = (Ok (Some w), g') →
  Inv w ∧ length w = N.
Proof.
  intros Hstep HI Hrun.
  pose proof (avoid_walk_fuel_depth _ _ _ _ _ _ _ Hrun) as [Hle _].
  rewrite length_replicate in Hle.
  apply (avoid_walk_fuel_inv possible_steps Inv Hstep) in Hrun;
    rewrite ?length_replicate in *; [done|lia| |].
  - intros Hlt. by rewrite !lookup_replicate_2 by lia.
  - destruct N; [lia|]. done.
Qed.


(** Whatever the budget, a returned buffer is a complete legal walk. *)
Lemma main_walk_legal_fuel edges obs (N fuel : nat) g w g' :
  avoid_walk_fuel (Main.possible_steps edges obs) fuel (replicate N (0, 0)) 1 g
  = (Ok (Some w), g') →
  length w = N ∧ NoDup w ∧ stepwise (0, 0) (legal_move2 edges obs) w.
Proof.
  intros Hrun.
  eapply (avoid_walk_fuel_inv_origin _
            (λ l, NoDup l ∧ stepwise (0, 0) (legal_move2 edges obs) l)) in Hrun.
  - by destruct Hrun as [[? ?] ?].
  - intros steps i ga cands gb c Hi Hps Hc Hph [Hnd Hst].
    destruct (main_possible_steps_elem _ _ _ _ _ _ _ _ Hps Hc)
      as (cur & d & Hcur & Hd & -> & Hnew & Hedge & Hobs).
    split.
    + apply NoDup_app. split_and!; [done| |apply NoDup_singleton].
      intros x Hx ->%list_elem_of_singleton.
      by apply (not_elem_of_prefix steps i _ Hnew).
    + eapply stepwise_snoc; [by apply last_of_prefix|done|].
      split_and!; [by apply main_option_is_step|done..].
  - split; [apply NoDup_singleton|apply stepwise_singleton].
Qed.

Lemma threed_walk_legal_fuel max obs (N fuel : nat) g w g' :
  avoid_walk_fuel (ThreeD.possible_steps max obs) fuel (replicate N (0, 0, 0)) 1 g
  = (Ok (Some w), g') →
  length w = N ∧ NoDup w ∧ stepwise (0, 0, 0) (legal_move3 max obs) w.
Proof.
  intros Hrun.
  eapply (avoid_walk_fuel_inv_origin _
            (λ l, NoDup l ∧ stepwise (0, 0, 0) (legal_move3 max obs) l)) in Hrun.
  - by destruct Hrun as [[? ?] ?].
  - intros steps i ga cands gb c Hi Hps Hc Hph [Hnd Hst].
    destruct (threed_possible_steps_elem _ _ _ _ _ _ _ _ Hps Hc)
      as (cur & d & Hcur & Hd & -> & Hnew & Hin & Hobs).
    split.
    + apply NoDup_app. split_and!; [done| |apply NoDup_singleton].
      intros x Hx ->%list_elem_of_singleton.
      by apply (not_elem_of_prefix steps i _ Hnew).
    + eapply stepwise_snoc; [by apply last_of_prefix|done|].
      split_and!; [by apply threed_option_is_step|done..].
  - split; [apply NoDup_singleton|apply stepwise_singleton].
Qed.






(** C6. No placement origin accepted by [random_obstacle_placement] has
    every coordinate in [-4 .. 0].  A block covers the all-zero point only
    when anchored in [-3 .. 0] on every axis, a sub-range of the rejected
    one, so the occupied-cell set that [generate_obstacles] builds on a
    fresh object never contains the origin. *)
Theorem placed_obstacles_leave_origin_free :
  ((∀ depth border g origin g',
      Main.random_obstacle_placement depth border g = (Ok origin, g') →
      ¬ ((-4 ≤ origin.1 ≤ 0) ∧ (-4 ≤ origin.2 ≤ 0)))
   ∧ (∀ origin,
        (0, 0) ∈ Main.columns (Main.block origin) →
        (-3 ≤ origin.1 ≤ 0) ∧ (-3 ≤ origin.2 ≤ 0))
   ∧ (∀ depth border n g obstacles obs_points g',
        Main.generate_obstacles depth border n ([], []) g
        = (Ok (obstacles, obs_points), g') →
        Forall main_placed obstacles
        ∧ obs_points = (ob ← obstacles; Main.columns ob)
        ∧ (0, 0) ∉ obs_points))
  ∧ ((∀ depth max g origin g',
        ThreeD.random_obstacle_placement depth max g = (Ok origin, g') →
        ¬ ((-4 ≤ origin.1.1 ≤ 0) ∧ (-4 ≤ origin.1.2 ≤ 0) ∧ (-4 ≤ origin.2 ≤ 0)))
     ∧ (∀ origin,
          (0, 0, 0) ∈ ThreeD.columns (ThreeD.block origin) →
          (-3 ≤ origin.1.1 ≤ 0) ∧ (-3 ≤ origin.1.2 ≤ 0) ∧ (-3 ≤ origin.2 ≤ 0))
     ∧ (∀ depth max n g obstacles obs_points g',
          ThreeD.generate_obstacles depth max n ([], []) g
          = (Ok (obstacles, obs_points), g') →
          Forall threed_placed obstacles
          ∧ obs_points = (ob ← obstacles; ThreeD.columns ob)
          ∧ (0, 0, 0) ∉ obs_points)).
Proof.
  split; split_and!.
  - intros depth border g origin g' Hplace. by eapply main_placement_accepted.
  - intros origin. apply main_block_covers_origin.
  - intros depth border n g obstacles obs_points g' Hgen.
    destruct (main_generate_placed _ _ _ _ _ _ _ Hgen) as [Hall Hpts].
    split_and!; [done..|]. by eapply main_generated_origin_free.
  - intros depth max g origin g' Hplace. by eapply threed_placement_accepted.
  - intros origin. apply threed_block_covers_origin.
  - intros depth max n g obstacles obs_points g' Hgen.
    destruct (threed_generate_placed _ _ _ _ _ _ _ Hgen) as [Hall Hpts].
    split_and!; [done..|]. by eapply threed_generated_origin_free.
Qed.

Lemma placed_obstacles_leave_origin_free_witness :
  (Main.generate_obstacles 0 (Main.border_of 5) 1 ([], []) [6; 0]%nat
   = (Ok ([Main.block (1, -5)], Main.columns (Main.block (1, -5))), [])
   ∧ (0, 0) ∉ Main.columns (Main.block (1, -5)))
  ∧ (ThreeD.generate_obstacles 0 5 1 ([], []) [6; 0; 0]%nat
     = (Ok ([ThreeD.block (1, -5, -5)], ThreeD.columns (ThreeD.block (1, -5, -5))), [])
     ∧ (0, 0, 0) ∉ ThreeD.columns (ThreeD.block (1, -5, -5))).
Proof.
  split; (split; [vm_compute; reflexivity|]).
  - eapply (proj2 (proj2 (proj1 placed_obstacles_leave_origin_free))
              0%nat (Main.border_of 5) 1 [6; 0]%nat _ _ []).
    vm_compute; reflexivity.
  - eapply (proj2 (proj2 (proj2 placed_obstacles_leave_origin_free))
              0%nat 5 1 [6; 0; 0]%nat _ _ []).
    vm_compute; reflexivity.
Defined.

(** C7, as the scripts have it.  For every positive step count up to
    [root_exact_bound] (2 ^ 40, the sizes at which the float64 roots round
    as the real ones) the computed half-width is
    [round(round(root) * 1.75 / 2)]: the root (square root in main.py, cube
    root in 3d.py) is first rounded to the nearest integer [r], and the
    half-width is [7 * r / 8] rounded to the nearest integer, ties to even;
    it is at least 1. *)
Theorem half_width_rounds_root_first (size : nat) :
  (0 < size)%nat → Z.of_nat size ≤ root_exact_bound →
  (∃ r, nearest_root 2 (Z.of_nat size) r
        ∧ nearest_eighth (7 * r) (Main.h_length size)
        ∧ 1 ≤ Main.h_length size)
  ∧ (∃ r, nearest_root 3 (Z.of_nat size) r
          ∧ nearest_eighth (7 * r) (ThreeD.set_max size)
          ∧ 1 ≤ ThreeD.set_max size).
Proof.
  intros Hs _. split.
  - destruct (main_h_length_rounds size Hs) as (r & Hr & Hh).
    exists r. split_and!; [done..|]. by apply main_h_length_positive.
  - destruct (threed_set_max_rounds size Hs) as (r & Hr & Hh).
    exists r. split_and!; [done..|]. by apply threed_set_max_positive.
Qed.

Lemma half_width_rounds_root_first_witness :
  (0 < 225)%nat ∧ 225 ≤ root_exact_bound
  ∧ (∃ r, nearest_root 2 225 r ∧ nearest_eighth (7 * r) (Main.h_length 225)
          ∧ 1 ≤ Main.h_length 225)
  ∧ (∃ r, nearest_root 3 225 r ∧ nearest_eighth (7 * r) (ThreeD.set_max 225)
          ∧ 1 ≤ ThreeD.set_max 225).
Proof.
  split; [lia|]. split; [by vm_compute|].
  apply (half_width_rounds_root_first 225); [lia|by vm_compute].
Defined.

(** C7, as section 4.1 of the specification words it, fails: multiplying
    the root by 1.75 before rounding gives half-width 3 for 13 steps in two dimensions where
    main.py computes 4, and 6 for 225 steps in three dimensions where 3d.py
    computes 5. *)
Lemma half_width_differs_from_spec_wording :
  Main.h_length 13 ≠ Spec.half_width_2d 13
  ∧ ThreeD.set_max 225 ≠ Spec.half_width_3d 225.
Proof. split; vm_compute; discriminate. Qed.

Example half_width_values_where_they_differ :
  Main.h_length 13 = 4 ∧ Spec.half_width_2d 13 = 3
  ∧ ThreeD.set_max 225 = 5 ∧ Spec.half_width_3d 225 = 6.
Proof. repeat split; vm_compute; reflexivity. Qed.

(** C8. For 225 steps the computed half-width is 13 in main.py
    ([round(15 * 1.75 / 2) = round(13.125)]) and 5 in 3d.py
    ([round(6 * 1.75 / 2) = round(5.25)]). *)
Theorem half_width_for_225_steps :
  (round_sqrt 225 = 15 ∧ Main.h_length 225 = 13)
  ∧ (round_cbrt 225 = 6 ∧ ThreeD.set_max 225 = 5).
Proof. repeat split; vm_compute; reflexivity. Qed.

(** C9. With step count 1 the search alone returns the one-slot buffer, the
    origin and nothing else; but [rand_avoid], which constructs the walk,
    never reaches the search: the half-width is 1, the placement range
    [-1 .. -3] is empty and [random.randint] raises [ValueError]. *)
Theorem one_step_walk_construction_raises :
  (Main.h_length 1 = 1
   ∧ (∀ edges obs g,
        Main.avoid_walk edges obs (replicate 1 (0, 0)) 1 g = (Ok (Some [(0, 0)]), g))
   ∧ (∀ depth g_py g_np, Main.rand_avoid depth 1 g_py g_np = Exn ValueError))
  ∧ (ThreeD.set_max 1 = 1
     ∧ (∀ max obs g,
          ThreeD.avoid_walk max obs (replicate 1 (0, 0, 0)) 1 g
          = (Ok (Some [(0, 0, 0)]), g))
     ∧ (∀ depth g_py g_np, ThreeD.rand_avoid depth 1 g_py g_np = Exn ValueError)).
Proof.
  split; split_and!.
  - vm_compute; reflexivity.
  - intros. apply avoid_walk_one_slot.
  - intros. apply main_rand_avoid_raises; vm_compute; [done|discriminate].
  - vm_compute; reflexivity.
  - intros. apply avoid_walk_one_slot.
  - intros. apply threed_rand_avoid_raises. vm_compute. done.
Qed.

(** C10. For every half-width below 2 and every requested obstacle count of
    at least 1, obstacle placement ends in an exception, for every retry
    budget and every random source: the range [-H .. H - 4] of the placement
    draw is empty, so [random.randint] raises [ValueError] (in main.py a
    negative half-width fails even earlier, on the empty border).  In
    particular a run whose computed bound is 1 places no obstacle. *)
Theorem placement_raises_below_half_width_two :
  (∀ h g, h < 2 → randint (- h) (h - 4) g = (Exn ValueError, g))
  ∧ (∀ depth h n self g,
       h < 2 → 1 ≤ n →
       Main.generate_obstacles depth (Main.border_of h) n self g
       = (Exn (if decide (0 ≤ h) then ValueError else IndexError), g))
  ∧ (∀ depth h n self g,
       h < 2 → 1 ≤ n →
       ThreeD.generate_obstacles depth h n self g = (Exn ValueError, g))
  ∧ (∀ depth size g_py g_np,
       Main.h_length size = 1 →
       Main.rand_avoid depth size g_py g_np = Exn ValueError)
  ∧ (∀ depth size g_py g_np,
       ThreeD.set_max size = 1 →
       ThreeD.rand_avoid depth size g_py g_np = Exn ValueError).
Proof.
  split_and!.
  - intros h g Hh. apply randint_empty. lia.
  - intros. by apply main_generate_raises.
  - intros. by apply threed_generate_raises.
  - intros depth size g_py g_np Hh. apply main_rand_avoid_raises; lia.
  - intros depth size g_py g_np Hh. apply threed_rand_avoid_raises; lia.
Qed.

Lemma placement_raises_below_half_width_two_witness :
  (1 < 2 ∧ 1 ≤ 3
   ∧ Main.generate_obstacles 1000 (Main.border_of 1) 3 ([], []) [5; 8]%nat
     = (Exn ValueError, [5; 8]%nat))
  ∧ (1 < 2 ∧ 1 ≤ 2
     ∧ ThreeD.generate_obstacles 1000 1 2 ([], []) [5; 8]%nat
       = (Exn ValueError, [5; 8]%nat))
  ∧ (Main.h_length 2 = 1 ∧ Main.rand_avoid 1000 2 [5; 8]%nat [] = Exn ValueError).
Proof.
  split_and!; try lia.
  - apply (proj1 (proj2 placement_raises_below_half_width_two)
             1000%nat 1 3 ([], []) [5; 8]%nat); lia.
  - apply (proj1 (proj2 (proj2 placement_raises_below_half_width_two))
             1000%nat 1 2 ([], []) [5; 8]%nat); lia.
  - vm_compute; reflexivity.
  - apply (proj1 (proj2 (proj2 (proj2 placement_raises_below_half_width_two)))
             1000%nat 2%nat [5; 8]%nat []).
    vm_compute; reflexivity.
Defined.

(** * Further properties of the code *)

(** ** The search is exhaustive *)

Lemma lookup_commit_gt {P} (steps : list P) i j k :
  (S i < k)%nat → commit steps i j !! k = steps !! k.
Proof.
  intros Hk. unfold commit. case_decide.
  - destruct (<[i:=j]> steps !! i); simpl;
      rewrite ?list_lookup_insert_ne; auto with lia.
  - rewrite list_lookup_insert_ne; auto with lia.
Qed.

(** The loop answers [False] only if every recursive call it made did. *)
Lemma try_each_not_dead {P} recur (steps : list P) i cands g g' j :
  j ∈ cands →
  (∀ ga gb, recur (commit steps i j) ga ≠ (Ok None, gb)) →
  try_each recur steps i cands g ≠ (Ok None, g').
Proof.
  intros Hj Hrec. revert g.
  induction cands as [|c cands IH]; intros g; [by apply elem_of_nil in Hj|].
  simpl. apply elem_of_cons in Hj as [<-|Hj].
  - pose proof (Hrec g) as Hg.
    destruct (recur (commit steps i j) g) as [[[w|]| |] g1]; try done.
    by destruct (Hg g1).
  - destruct (recur (commit steps i c) g) as [[[w|]| |] g1]; try done.
    by apply IH.
Qed.

Section SearchComplete.
Context {P : Type}.
Variable possible_steps : list P → nat → rng → result (list P) * rng.
Variable move : P → P → Prop.

Hypothesis possible_steps_complete : ∀ steps i g cands g' cur c,
  possible_steps steps i g = (Ok cands, g') → steps !! i = Some cur →
  move cur c → c ∉ steps → c ∈ cands.

Lemma extends_next_candidate steps i w g cands g' c :
  extends move steps i w → (i < length steps)%nat →
  possible_steps steps i g = (Ok cands, g') → w !! i = Some c → c ∈ cands.
Proof.
  intros (Hi & Hlen & Htake & Hph & Htail & Hnd & Hmv) Hlt Hps Hc.
  assert (w !! (i - 1)%nat = steps !! (i - 1)%nat) as Hprev.
  { rewrite <- (lookup_take_lt w i), <- (lookup_take_lt steps i) by lia.
    by rewrite Htake. }
  destruct (lookup_lt_is_Some_2 steps i Hlt) as [cur Hcur].
  eapply possible_steps_complete; [done..| |].
  - apply (Hmv (i - 1)%nat).
    + rewrite Hprev, <- Hph by done. done.
    + by replace (S (i - 1)) with i by lia.
  - intros (k & Hk)%list_elem_of_lookup_1.
    assert (∃ k', (k' < i)%nat ∧ w !! k' = Some c) as (k' & Hk' & Hwk').
    { destruct (decide (k < i)%nat).
      - exists k. split; [done|].
        rewrite <- (lookup_take_lt w i), Htake, lookup_take_lt by lia. done.
      - pose proof (Htail k c ltac:(lia) Hk) as (k' & Hlook & Hk')%elem_of_take.
        exists k'. split; [done|].
        rewrite <- (lookup_take_lt w i), Htake, lookup_take_lt by lia. done. }
    pose proof (NoDup_lookup _ _ _ _ Hnd Hwk' Hc). lia.
Qed.

Lemma extends_commit steps i w c :
  extends move steps i w → (i < length steps)%nat → w !! i = Some c →
  extends move (commit steps i c) (S i) w.
Proof.
  intros (Hi & Hlen & Htake & Hph & Htail & Hnd & Hmv) Hlt Hc.
  unfold extends. rewrite length_commit, take_commit by done.
  split_and!; [lia|lia|done| | | |done..].
  - rewrite (take_S_r _ _ c) by done. by rewrite Htake.
  - intros Hlt'. rewrite lookup_commit_next by done.
    replace (S i - 1)%nat with i by lia. symmetry. by apply lookup_commit.
  - intros k x Hk Hx. apply elem_of_app.
    destruct (decide (k = S i)) as [->|].
    + right. apply list_elem_of_singleton.
      assert (S i < length steps)%nat as Hlt'.
      { apply lookup_lt_Some in Hx. by rewrite length_commit in Hx. }
      rewrite lookup_commit_next in Hx by done. congruence.
    + left. rewrite lookup_commit_gt in Hx by lia. apply (Htail k); [lia|done].
Qed.

Lemma avoid_walk_fuel_not_dead fuel steps i w g g' :
  extends move steps i w →
  avoid_walk_fuel possible_steps fuel steps i g ≠ (Ok None, g').
Proof.
  revert steps i g g'. induction fuel as [|fuel IH]; intros steps i g g' Hext; [done|].
  simpl. case_decide as Hlen; [done|].
  assert (i < length steps)%nat as Hlt by (destruct Hext as [? _]; lia).
  destruct (possible_steps steps i g) as [[cands| |] g1] eqn:Hps; try done.
  assert (is_Some (w !! i)) as [c Hc].
  { apply lookup_lt_is_Some. destruct Hext as (_ & -> & _). done. }
  pose proof (extends_next_candidate _ _ _ _ _ _ _ Hext Hlt Hps Hc) as Hin.
  case_decide as Hnil.
  { destruct cands; [by apply elem_of_nil in Hin|done]. }
  apply (try_each_not_dead _ _ _ _ _ _ c Hin).
  intros ga gb. apply IH. by apply extends_commit.
Qed.

Lemma avoid_walk_not_dead (origin : P) (N : nat) w g g' :
  length w = N → w !! 0%nat = Some origin → NoDup w →
  (∀ (k : nat) p q, w !! k = Some p → w !! S k = Some q → move p q) →
  avoid_walk possible_steps (replicate N origin) 1 g ≠ (Ok None, g').
Proof.
  intros Hlen H0 Hnd Hmv. apply (avoid_walk_fuel_not_dead _ _ _ w).
  assert (0 < N)%nat.
  { apply lookup_lt_Some in H0. lia. }
  unfold extends. rewrite length_replicate.
  split_and!; [lia|lia|done| | | |done..].
  - destruct w as [|p w]; [done|]. injection H0 as ->.
    destruct N; [lia|]. simpl. by rewrite !take_0.
  - intros Hlt. by rewrite !lookup_replicate_2 by lia.
  - intros k x _ [-> _]%lookup_replicate. destruct N; [lia|]. simpl. left.
Qed.
End SearchComplete.

(** A unit step is one of the options. *)
Lemma main_step_is_option p q :
  unit_step2 p q → ∃ d, d ∈ Main.options ∧ q = Main.add p d.
Proof.
  unfold unit_step2, Main.add, Main.options. destruct p as [x y], q as [x' y'].
  simpl. intros Hst.
  exists (x' - x, y' - y). cbn [fst snd]. split; [|f_equal; lia].
  rewrite !elem_of_cons.
  destruct (decide (x' - x = 0 ∧ y' - y = 1)) as [[-> ->]|]; [by left|].
  destruct (decide (x' - x = 0 ∧ y' - y = -1)) as [[-> ->]|]; [by right; left|].
  destruct (decide (x' - x = 1 ∧ y' - y = 0)) as [[-> ->]|];
    [by right; right; left|].
  destruct (decide (x' - x = -1 ∧ y' - y = 0)) as [[-> ->]|];
    [by right; right; right; left|].
  lia.
Qed.

Lemma threed_step_is_option p q :
  unit_step3 p q → ∃ d, d ∈ ThreeD.options ∧ q = ThreeD.add p d.
Proof.
  unfold unit_step3, ThreeD.add, ThreeD.options.
  destruct p as [[x y] z], q as [[x' y'] z']. simpl. intros Hst.
  exists (x' - x, y' - y, z' - z). cbn [fst snd]. split; [|repeat f_equal; lia].
  rewrite !elem_of_cons.
  destruct (decide (x' - x = 0 ∧ y' - y = 0 ∧ z' - z = 1)) as [(-> & -> & ->)|];
    [by left|].
  destruct (decide (x' - x = 0 ∧ y' - y = 0 ∧ z' - z = -1)) as [(-> & -> & ->)|];
    [by right; left|].
  destruct (decide (x' - x = 0 ∧ y' - y = 1 ∧ z' - z = 0)) as [(-> & -> & ->)|];
    [by right; right; left|].
  destruct (decide (x' - x = 0 ∧ y' - y = -1 ∧ z' - z = 0)) as [(-> & -> & ->)|];
    [by right; right; right; left|].
  destruct (decide (x' - x = 1 ∧ y' - y = 0 ∧ z' - z = 0)) as [(-> & -> & ->)|];
    [by right; right; right; right; left|].
  destruct (decide (x' - x = -1 ∧ y' - y = 0 ∧ z' - z = 0)) as [(-> & -> & ->)|];
    [by right; right; right; right; right; left|].
  lia.
Qed.

Lemma main_possible_steps_complete edges obs steps i g cands g' cur c :
  Main.possible_steps edges obs steps i g = (Ok cands, g') → steps !! i = Some cur →
  legal_move2 edges obs cur c → c ∉ steps → c ∈ cands.
Proof.
  unfold Main.possible_steps. intros Hps Hcur (Hst & Hedge & Hobs) Hnew.
  rewrite Hcur in Hps. destruct (shuffle _ g) as [l g1] eqn:Hsh.
  injection Hps as <- <-.
  pose proof (shuffle_perm (filter (λ temp, (temp ∉ steps)
    ∧ (temp ∉ Main.columns edges) ∧ (temp ∉ obs)) (Main.add cur <$> Main.options)) g)
    as Hperm.
  rewrite Hsh in Hperm. cbn [fst] in Hperm. rewrite Hperm.
  apply list_elem_of_filter. split; [done|].
  destruct (main_step_is_option _ _ Hst) as (d & Hd & ->).
  by apply list_elem_of_fmap_2.
Qed.

Lemma threed_possible_steps_complete max obs steps i g cands g' cur c :
  ThreeD.possible_steps max obs steps i g = (Ok cands, g') → steps !! i = Some cur →
  legal_move3 max obs cur c → c ∉ steps → c ∈ cands.
Proof.
  unfold ThreeD.possible_steps. intros Hps Hcur (Hst & Hin & Hobs) Hnew.
  rewrite Hcur in Hps. destruct (shuffle _ g) as [l g1] eqn:Hsh.
  injection Hps as <- <-.
  pose proof (shuffle_perm (filter (λ temp : ThreeD.point, (temp ∉ steps)
    ∧ (Z.abs temp.1.1 < max ∧ Z.abs temp.1.2 < max ∧ Z.abs temp.2 < max)
    ∧ (temp ∉ obs)) (ThreeD.add cur <$> ThreeD.options)) g) as Hperm.
  rewrite Hsh in Hperm. cbn [fst] in Hperm. rewrite Hperm.
  apply list_elem_of_filter. split; [done|].
  destruct (threed_step_is_option _ _ Hst) as (d & Hd & ->).
  by apply list_elem_of_fmap_2.
Qed.

Lemma extends_start {P} (move : P → P → Prop) (origin : P) (N : nat) w :
  length w = N → w !! 0%nat = Some origin → NoDup w →
  (∀ (k : nat) p q, w !! k = Some p → w !! S k = Some q → move p q) →
  extends move (replicate N origin) 1 w.
Proof.
  intros Hlen H0 Hnd Hmv.
  assert (0 < N)%nat.
  { apply lookup_lt_Some in H0. lia. }
  unfold extends. rewrite length_replicate.
  split_and!; [lia|lia|done| | | |done..].
  - destruct w as [|p w]; [done|]. injection H0 as ->.
    destruct N; [lia|]. simpl. by rewrite !take_0.
  - intros Hlt. by rewrite !lookup_replicate_2 by lia.
  - intros k x _ [-> _]%lookup_replicate. destruct N; [lia|]. simpl. left.
Qed.

(** X1. The search is exhaustive.  Whatever the random order of the
    candidates and whatever the number [limit] of nested calls the
    interpreter allows: a returned buffer is a sequence of [N] pairwise
    distinct points that starts at the origin and moves by single steps onto
    points passing the border (or bound) and obstacle tests; [False] is
    returned only when no such sequence exists; and when one exists and
    [N ≤ limit], a walk is returned. *)
Theorem search_is_exhaustive_within_budget :
  (∀ edges obs (N limit : nat) g,
     (∀ w g',
        avoid_walk_fuel (Main.possible_steps edges obs) limit
          (replicate N (0, 0)) 1 g = (Ok (Some w), g') →
        length w = N ∧ NoDup w ∧ stepwise (0, 0) (legal_move2 edges obs) w)
     ∧ (∀ g',
          avoid_walk_fuel (Main.possible_steps edges obs) limit
            (replicate N (0, 0)) 1 g = (Ok None, g') →
          ¬ ∃ w, length w = N ∧ NoDup w
                 ∧ stepwise (0, 0) (legal_move2 edges obs) w)
     ∧ ((N ≤ limit)%nat →
        (∃ w, length w = N ∧ NoDup w ∧ stepwise (0, 0) (legal_move2 edges obs) w) →
        ∃ w' g',
          avoid_walk_fuel (Main.possible_steps edges obs) limit
            (replicate N (0, 0)) 1 g = (Ok (Some w'), g')))
  ∧ (∀ max obs (N limit : nat) g,
       (∀ w g',
          avoid_walk_fuel (ThreeD.possible_steps max obs) limit
            (replicate N (0, 0, 0)) 1 g = (Ok (Some w), g') →
          length w = N ∧ NoDup w ∧ stepwise (0, 0, 0) (legal_move3 max obs) w)
       ∧ (∀ g',
            avoid_walk_fuel (ThreeD.possible_steps max obs) limit
              (replicate N (0, 0, 0)) 1 g = (Ok None, g') →
            ¬ ∃ w, length w = N ∧ NoDup w
                   ∧ stepwise (0, 0, 0) (legal_move3 max obs) w)
       ∧ ((N ≤ limit)%nat →
          (∃ w, length w = N ∧ NoDup w
                ∧ stepwise (0, 0, 0) (legal_move3 max obs) w) →
          ∃ w' g',
            avoid_walk_fuel (ThreeD.possible_steps max obs) limit
              (replicate N (0, 0, 0)) 1 g = (Ok (Some w'), g'))).
Proof.
  split.
  - intros edges obs N limit g.
    assert (∀ g',
      avoid_walk_fuel (Main.possible_steps edges obs) limit
        (replicate N (0, 0)) 1 g = (Ok None, g') →
      ¬ ∃ w, length w = N ∧ NoDup w
             ∧ stepwise (0, 0) (legal_move2 edges obs) w) as Hdead.
    { intros g' Hrun (w & Hlen & Hnd & H0 & Hst). revert Hrun.
      apply (avoid_walk_fuel_not_dead _ (legal_move2 edges obs)
               (main_possible_steps_complete edges obs) limit _ _ w).
      by apply extends_start. }
    split_and!; [|done|].
    + intros w g'. apply main_walk_legal_fuel.
    + intros HN (w & Hlen & Hnd & H0 & Hst).
      assert (1 ≤ N)%nat by (apply lookup_lt_Some in H0; lia).
      destruct (avoid_walk_fuel_answers (Main.possible_steps edges obs)
                  (main_possible_steps_answers edges obs) limit
                  (replicate N (0, 0)) 1 g)
        as ([w'|] & g' & Hrun); [rewrite length_replicate; lia..|by eauto|].
      destruct (Hdead g' Hrun). exists w. by split_and!.
  - intros max obs N limit g.
    assert (∀ g',
      avoid_walk_fuel (ThreeD.possible_steps max obs) limit
        (replicate N (0, 0, 0)) 1 g = (Ok None, g') →
      ¬ ∃ w, length w = N ∧ NoDup w
             ∧ stepwise (0, 0, 0) (legal_move3 max obs) w) as Hdead.
    { intros g' Hrun (w & Hlen & Hnd & H0 & Hst). revert Hrun.
      apply (avoid_walk_fuel_not_dead _ (legal_move3 max obs)
               (threed_possible_steps_complete max obs) limit _ _ w).
      by apply extends_start. }
    split_and!; [|done|].
    + intros w g'. apply threed_walk_legal_fuel.
    + intros HN (w & Hlen & Hnd & H0 & Hst).
      assert (1 ≤ N)%nat by (apply lookup_lt_Some in H0; lia).
      destruct (avoid_walk_fuel_answers (ThreeD.possible_steps max obs)
                  (threed_possible_steps_answers max obs) limit
                  (replicate N (0, 0, 0)) 1 g)
        as ([w'|] & g' & Hrun); [rewrite length_replicate; lia..|by eauto|].
      destruct (Hdead g' Hrun). exists w. by split_and!.
Qed.

Lemma search_is_exhaustive_within_budget_witness :
  (avoid_walk_fuel (Main.possible_steps (Main.border_of 1) []) 1000
     (replicate 2 (0, 0)) 1 [] = (Ok None, [])
   ∧ ¬ ∃ w, length w = 2%nat ∧ NoDup w
            ∧ stepwise (0, 0) (legal_move2 (Main.border_of 1) []) w)
  ∧ (avoid_walk_fuel (ThreeD.possible_steps 1 []) 1000
       (replicate 2 (0, 0, 0)) 1 [] = (Ok None, [])
     ∧ ¬ ∃ w, length w = 2%nat ∧ NoDup w
              ∧ stepwise (0, 0, 0) (legal_move3 1 []) w).
Proof.
  split; (split; [vm_compute; reflexivity|]).
  - apply (proj1 (proj2 (proj1 search_is_exhaustive_within_budget
                           (Main.border_of 1) [] 2%nat 1000%nat [])) []).
    vm_compute; reflexivity.
  - apply (proj1 (proj2 (proj2 search_is_exhaustive_within_budget
                           1 [] 2%nat 1000%nat [])) []).
    vm_compute; reflexivity.
Defined.

(** X2. Called with an index beyond the buffer (in particular on the empty
    buffer of step count 0, with the default index 1) the search raises
    [IndexError] in [possible_steps] and consumes no randomness. *)
Theorem search_beyond_buffer_raises :
  (∀ edges obs steps (i : nat) g,
     (length steps < i)%nat →
     Main.avoid_walk edges obs steps i g = (Exn IndexError, g))
  ∧ (∀ max obs steps (i : nat) g,
       (length steps < i)%nat →
       ThreeD.avoid_walk max obs steps i g = (Exn IndexError, g)).
Proof.
  split; intros ? obs steps i g Hi.
  - unfold Main.avoid_walk, avoid_walk. cbn [avoid_walk_fuel].
    rewrite decide_False by lia. unfold Main.possible_steps.
    by rewrite lookup_ge_None_2 by lia.
  - unfold ThreeD.avoid_walk, avoid_walk. cbn [avoid_walk_fuel].
    rewrite decide_False by lia. unfold ThreeD.possible_steps.
    by rewrite lookup_ge_None_2 by lia.
Qed.

Lemma search_beyond_buffer_raises_witness :
  ((0 < 1)%nat
   ∧ Main.avoid_walk (Main.border 0) [] (replicate 0 (0, 0)) 1 [7]%nat
     = (Exn IndexError, [7]%nat))
  ∧ ((0 < 1)%nat
     ∧ ThreeD.avoid_walk (ThreeD.set_max 0) [] (replicate 0 (0, 0, 0)) 1 [7]%nat
       = (Exn IndexError, [7]%nat)).
Proof.
  split; (split; [lia|]).
  - apply (proj1 search_beyond_buffer_raises (Main.border 0) [] [] 1%nat [7]%nat).
    simpl. lia.
  - apply (proj2 search_beyond_buffer_raises (ThreeD.set_max 0) [] [] 1%nat [7]%nat).
    simpl. lia.
Defined.

(** ** More on the obstacle placer *)

Lemma randint_nonempty (a b : Z) (g : rng) :
  a ≤ b → ∃ x g', randint a b g = (Ok x, g') ∧ a ≤ x ≤ b.
Proof.
  intros Hab. unfold randint. rewrite decide_False by lia.
  destruct (next g) as [r g1]. eexists _, _. split; [done|].
  pose proof (Z.mod_pos_bound (Z.of_nat r) (b - a + 1)). lia.
Qed.

(** An accepted origin was drawn from [-limit .. limit - 4] on every axis. *)
Lemma main_placement_in_range depth border g origin g' b00 :
  border.1 !! 0%nat = Some b00 →
  Main.random_obstacle_placement depth border g = (Ok origin, g') →
  (b00 ≤ origin.1 ≤ - b00 - 4) ∧ (b00 ≤ origin.2 ≤ - b00 - 4).
Proof.
  intros Hb. revert g.
  induction depth as [|depth IH]; intros g; cbn [Main.random_obstacle_placement];
    rewrite Hb;
    destruct (randint _ _ g) as [[x| |] g1] eqn:Hx; try done;
    destruct (randint _ _ g1) as [[y| |] g2] eqn:Hy; try done;
    apply randint_in_range in Hx, Hy;
    case_decide; try done; try (intros [= <- <-]; cbn [fst snd]; lia).
  apply IH.
Qed.

Lemma threed_placement_in_range depth max g origin g' :
  ThreeD.random_obstacle_placement depth max g = (Ok origin, g') →
  (- max ≤ origin.1.1 ≤ max - 4) ∧ (- max ≤ origin.1.2 ≤ max - 4)
  ∧ (- max ≤ origin.2 ≤ max - 4).
Proof.
  revert g.
  induction depth as [|depth IH]; intros g; cbn [ThreeD.random_obstacle_placement];
    destruct (randint _ _ g) as [[x| |] g1] eqn:Hx; try done;
    destruct (randint _ _ g1) as [[y| |] g2] eqn:Hy; try done;
    destruct (randint _ _ g2) as [[z| |] g3] eqn:Hz; try done;
    apply randint_in_range in Hx, Hy, Hz;
    case_decide; try done; try (intros [= <- <-]; cbn [fst snd]; lia).
  apply IH.
Qed.

(** The loop appends one block per round, each at an origin that a call of
    [random_obstacle_placement] returned. *)
Lemma main_place_blocks_origins n depth border obstacles g obstacles' g' :
  Main.place_blocks n depth border obstacles g = (Ok obstacles', g') →
  ∃ origins,
    obstacles' = obstacles ++ (Main.block <$> origins) ∧ length origins = n
    ∧ Forall (λ o, ∃ ga gb,
                Main.random_obstacle_placement depth border ga = (Ok o, gb)) origins.
Proof.
  revert obstacles g. induction n as [|n IH]; intros obstacles g; simpl.
  - intros [= <- _]. exists []. by rewrite app_nil_r.
  - destruct (Main.random_obstacle_placement depth border g)
      as [[origin| |] g1] eqn:Hplace; try done.
    intros (origins & -> & Hlen & Hall)%IH. exists (origin :: origins).
    split_and!; [by rewrite <- app_assoc|simpl; lia|].
    constructor; eauto.
Qed.

Lemma threed_place_blocks_origins n depth max obstacles g obstacles' g' :
  ThreeD.place_blocks n depth max obstacles g = (Ok obstacles', g') →
  ∃ origins,
    obstacles' = obstacles ++ (ThreeD.block <$> origins) ∧ length origins = n
    ∧ Forall (λ o, ∃ ga gb,
                ThreeD.random_obstacle_placement depth max ga = (Ok o, gb)) origins.
Proof.
  revert obstacles g. induction n as [|n IH]; intros obstacles g; simpl.
  - intros [= <- _]. exists []. by rewrite app_nil_r.
  - destruct (ThreeD.random_obstacle_placement depth max g)
      as [[origin| |] g1] eqn:Hplace; try done.
    intros (origins & -> & Hlen & Hall)%IH. exists (origin :: origins).
    split_and!; [by rewrite <- app_assoc|simpl; lia|].
    constructor; eauto.
Qed.

Lemma bind_fmap_list {A B C} (f : A → B) (h : B → list C) (l : list A) :
  (x ← f <$> l; h x) = (x ← l; h (f x)).
Proof.
  induction l as [|x l IH]; [done|].
  by rewrite fmap_cons, !bind_cons, IH.
Qed.

Lemma main_generate_origins depth border n g obstacles obs_points g' :
  Main.generate_obstacles depth border n ([], []) g = (Ok (obstacles, obs_points), g') →
  ∃ origins,
    obstacles = Main.block <$> origins
    ∧ obs_points = (o ← origins; Main.columns (Main.block o))
    ∧ length origins = Z.to_nat n
    ∧ Forall (λ o, ∃ ga gb,
                Main.random_obstacle_placement depth border ga = (Ok o, gb)) origins.
Proof.
  unfold Main.generate_obstacles. case_decide.
  - destruct (Main.place_blocks _ _ _ _ _) as [[obstacles'| |] g1] eqn:Hplace;
      try done.
    intros [= <- <- _].
    apply main_place_blocks_origins in Hplace as (origins & -> & Hlen & Hall).
    exists origins. split_and!; [done| |done..].
    simpl. apply bind_fmap_list.
  - intros [= <- <- _]. exists []. split_and!; [done..| |done].
    simpl. lia.
Qed.

Lemma threed_generate_origins depth max n g obstacles obs_points g' :
  ThreeD.generate_obstacles depth max n ([], []) g
  = (Ok (obstacles, obs_points), g') →
  ∃ origins,
    obstacles = ThreeD.block <$> origins
    ∧ obs_points = (o ← origins; ThreeD.columns (ThreeD.block o))
    ∧ length origins = Z.to_nat n
    ∧ Forall (λ o, ∃ ga gb,
                ThreeD.random_obstacle_placement depth max ga = (Ok o, gb)) origins.
Proof.
  unfold ThreeD.generate_obstacles. case_decide.
  - destruct (ThreeD.place_blocks _ _ _ _ _) as [[obstacles'| |] g1] eqn:Hplace;
      try done.
    intros [= <- <- _].
    apply threed_place_blocks_origins in Hplace as (origins & -> & Hlen & Hall).
    exists origins. split_and!; [done| |done..].
    simpl. apply bind_fmap_list.
  - intros [= <- <- _]. exists []. split_and!; [done..| |done].
    simpl. lia.
Qed.

Lemma length_bind_const {A B} (f : A → list B) (l : list A) (c : nat) :
  (∀ x, length (f x) = c) → length (l ≫= f) = (c * length l)%nat.
Proof.
  intros Hf. induction l as [|x l IH]; [simpl; lia|].
  rewrite bind_cons, length_app, Hf, IH. simpl. lia.
Qed.

(** X3. When [generate_obstacles] returns on a fresh object it has appended
    exactly [n] obstacles (none for [n ≤ 0]), each a pair (triple) of
    coordinate lists of 16 (64) entries, and the flattened cell list holds
    16 (64) points per obstacle: overlapping obstacles are kept with their
    duplicates. *)
Theorem generated_obstacle_counts :
  (∀ depth border n g obstacles obs_points g',
     Main.generate_obstacles depth border n ([], []) g
     = (Ok (obstacles, obs_points), g') →
     length obstacles = Z.to_nat n
     ∧ Forall (λ ob, length ob.1 = 16%nat ∧ length ob.2 = 16%nat) obstacles
     ∧ length obs_points = (16 * Z.to_nat n)%nat)
  ∧ (∀ depth max n g obstacles obs_points g',
       ThreeD.generate_obstacles depth max n ([], []) g
       = (Ok (obstacles, obs_points), g') →
       length obstacles = Z.to_nat n
       ∧ Forall (λ ob, length ob.1.1 = 64%nat ∧ length ob.1.2 = 64%nat
                       ∧ length ob.2 = 64%nat) obstacles
       ∧ length obs_points = (64 * Z.to_nat n)%nat).
Proof.
  split.
  - intros depth border n g obstacles obs_points g'
      (origins & -> & -> & Hlen & _)%main_generate_origins.
    split_and!.
    + by rewrite length_fmap.
    + apply Forall_fmap, Forall_true. intros o. done.
    + rewrite (length_bind_const _ _ 16) by done. lia.
  - intros depth max n g obstacles obs_points g'
      (origins & -> & -> & Hlen & _)%threed_generate_origins.
    split_and!.
    + by rewrite length_fmap.
    + apply Forall_fmap, Forall_true. intros o. done.
    + rewrite (length_bind_const _ _ 64) by done. lia.
Qed.

Lemma generated_obstacle_counts_witness :
  (Main.generate_obstacles 0 (Main.border_of 5) 2 ([], []) [6; 0; 0; 6]%nat
   = (Ok ([Main.block (1, -5); Main.block (-5, 1)],
          Main.columns (Main.block (1, -5)) ++ Main.columns (Main.block (-5, 1))), [])
   ∧ length (Main.columns (Main.block (1, -5)) ++ Main.columns (Main.block (-5, 1)))
     = (16 * Z.to_nat 2)%nat)
  ∧ (ThreeD.generate_obstacles 0 5 1 ([], []) [6; 0; 0]%nat
     = (Ok ([ThreeD.block (1, -5, -5)], ThreeD.columns (ThreeD.block (1, -5, -5))), [])
     ∧ length (ThreeD.columns (ThreeD.block (1, -5, -5))) = (64 * Z.to_nat 1)%nat).
Proof.
  split; (split; [vm_compute; reflexivity|]).
  - eapply (proj1 generated_obstacle_counts 0%nat (Main.border_of 5) 2
              [6; 0; 0; 6]%nat _ _ []).
    vm_compute; reflexivity.
  - eapply (proj2 generated_obstacle_counts 0%nat 5 1 [6; 0; 0]%nat _ _ []).
    vm_compute; reflexivity.
Defined.

(** X4. Every cell of every generated obstacle has its coordinates in
    [-H .. H - 1]: the block fits in the closed box of half-width [H] (it
    may touch the border ring on the negative sides, never on the positive
    ones). *)
Theorem generated_obstacles_fit_in_box :
  (∀ depth h n g obstacles obs_points g' p,
     Main.generate_obstacles depth (Main.border_of h) n ([], []) g
     = (Ok (obstacles, obs_points), g') →
     p ∈ obs_points →
     (- h ≤ p.1 ≤ h - 1) ∧ (- h ≤ p.2 ≤ h - 1))
  ∧ (∀ depth max n g obstacles obs_points g' p,
       ThreeD.generate_obstacles depth max n ([], []) g
       = (Ok (obstacles, obs_points), g') →
       p ∈ obs_points →
       (- max ≤ p.1.1 ≤ max - 1) ∧ (- max ≤ p.1.2 ≤ max - 1)
       ∧ (- max ≤ p.2 ≤ max - 1)).
Proof.
  split.
  - intros depth h n g obstacles obs_points g' p
      (origins & -> & -> & _ & Hall)%main_generate_origins
      (o & Hp%main_elem_of_block & Ho)%list_elem_of_bind.
    rewrite Forall_forall in Hall. destruct (Hall o Ho) as (ga & gb & Hplace).
    pose proof (main_border_first h) as Hfirst. case_decide.
    + pose proof (main_placement_in_range _ _ _ _ _ _ Hfirst Hplace). lia.
    + destruct depth; cbn [Main.random_obstacle_placement] in Hplace;
        by rewrite Hfirst in Hplace.
  - intros depth max n g obstacles obs_points g' p
      (origins & -> & -> & _ & Hall)%threed_generate_origins
      (o & Hp%threed_elem_of_block & Ho)%list_elem_of_bind.
    rewrite Forall_forall in Hall. destruct (Hall o Ho) as (ga & gb & Hplace).
    pose proof (threed_placement_in_range _ _ _ _ _ Hplace). lia.
Qed.

Lemma generated_obstacles_fit_in_box_witness :
  (Main.generate_obstacles 0 (Main.border_of 5) 1 ([], []) [6; 0]%nat
   = (Ok ([Main.block (1, -5)], Main.columns (Main.block (1, -5))), [])
   ∧ (4, -5) ∈ Main.columns (Main.block (1, -5))
   ∧ (- 5 ≤ (4, -5).1 ≤ 5 - 1) ∧ (- 5 ≤ (4, -5).2 ≤ 5 - 1))
  ∧ (ThreeD.generate_obstacles 0 5 1 ([], []) [6; 0; 0]%nat
     = (Ok ([ThreeD.block (1, -5, -5)], ThreeD.columns (ThreeD.block (1, -5, -5))), [])
     ∧ (4, -5, -2) ∈ ThreeD.columns (ThreeD.block (1, -5, -5))
     ∧ (- 5 ≤ (4, -5, -2).1.1 ≤ 5 - 1) ∧ (- 5 ≤ (4, -5, -2).1.2 ≤ 5 - 1)
       ∧ (- 5 ≤ (4, -5, -2).2 ≤ 5 - 1)).
Proof.
  split; (split; [vm_compute; reflexivity|]).
  - split; [apply main_elem_of_block; cbn [fst snd]; lia|].
    eapply (proj1 generated_obstacles_fit_in_box 0%nat 5 1 [6; 0]%nat
              [Main.block (1, -5)] (Main.columns (Main.block (1, -5))) []).
    + vm_compute; reflexivity.
    + apply main_elem_of_block; cbn [fst snd]; lia.
  - split; [apply threed_elem_of_block; cbn [fst snd]; lia|].
    eapply (proj2 generated_obstacles_fit_in_box 0%nat 5 1 [6; 0; 0]%nat
              [ThreeD.block (1, -5, -5)] (ThreeD.columns (ThreeD.block (1, -5, -5))) []).
    + vm_compute; reflexivity.
    + apply threed_elem_of_block; cbn [fst snd]; lia.
Defined.

Lemma randint_draw (a b x : Z) (g : rng) :
  a ≤ x ≤ b → randint a b (Z.to_nat (x - a) :: g) = (Ok x, g).
Proof.
  intros Hx. unfold randint. rewrite decide_False by lia. simpl.
  rewrite Z2Nat.id, Z.mod_small by lia. do 2 f_equal. lia.
Qed.

(** With a half-width from 2 to 4 every draw lands in [-4 .. 0] on every
    axis, so every attempt is rejected. *)
Lemma main_placement_starves depth (h : Z) g :
  2 ≤ h ≤ 4 →
  ∃ g', Main.random_obstacle_placement depth (Main.border_of h) g = (NoFuel, g').
Proof.
  intros Hh. revert g.
  induction depth as [|depth IH]; intros g; cbn [Main.random_obstacle_placement];
    rewrite main_border_first, decide_True, !Z.opp_involutive by lia;
    destruct (randint_nonempty (- h) (h - 4) g ltac:(lia)) as (x & g1 & -> & Hx);
    destruct (randint_nonempty (- h) (h - 4) g1 ltac:(lia)) as (y & g2 & -> & Hy);
    (rewrite decide_True by (unfold Main.blocks_origin; cbn [fst snd]; lia));
    eauto.
Qed.

Lemma threed_placement_starves depth (max : Z) g :
  2 ≤ max ≤ 4 →
  ∃ g', ThreeD.random_obstacle_placement depth max g = (NoFuel, g').
Proof.
  intros Hh. revert g.
  induction depth as [|depth IH]; intros g; cbn [ThreeD.random_obstacle_placement];
    destruct (randint_nonempty (- max) (max - 4) g ltac:(lia)) as (x & g1 & -> & Hx);
    destruct (randint_nonempty (- max) (max - 4) g1 ltac:(lia)) as (y & g2 & -> & Hy);
    destruct (randint_nonempty (- max) (max - 4) g2 ltac:(lia)) as (z & g3 & -> & Hz);
    (rewrite decide_True by (unfold ThreeD.blocks_origin; cbn [fst snd]; lia));
    eauto.
Qed.

Lemma main_placement_needs_five depth (h : Z) g origin g' :
  Main.random_obstacle_placement depth (Main.border_of h) g = (Ok origin, g') → 5 ≤ h.
Proof.
  intros Hplace. destruct (decide (h < 2)) as [Hlt|].
  { by rewrite main_placement_raises in Hplace. }
  destruct (decide (h ≤ 4)); [|lia].
  destruct (main_placement_starves depth h g) as [g1 Hno]; [lia|]. congruence.
Qed.

Lemma threed_placement_needs_five depth (max : Z) g origin g' :
  ThreeD.random_obstacle_placement depth max g = (Ok origin, g') → 5 ≤ max.
Proof.
  intros Hplace. destruct (decide (max < 2)) as [Hlt|].
  { by rewrite threed_placement_raises in Hplace. }
  destruct (decide (max ≤ 4)); [|lia].
  destruct (threed_placement_starves depth max g) as [g1 Hno]; [lia|]. congruence.
Qed.

(** X5. The placer can return an origin only in a region of half-width at
    least 5.  With a half-width from 2 to 4 every sampled origin lies in
    [-4 .. 0] on every axis and is rejected, so the retries go on until the
    recursion budget is exhausted, whatever the random source; from 5 on, a
    first draw can already be accepted. *)
Theorem placement_needs_half_width_five :
  ((∀ depth h g origin g',
      Main.random_obstacle_placement depth (Main.border_of h) g = (Ok origin, g') →
      5 ≤ h)
   ∧ (∀ depth h g,
        2 ≤ h ≤ 4 →
        ∃ g', Main.random_obstacle_placement depth (Main.border_of h) g
              = (NoFuel, g'))
   ∧ (∀ h g,
        5 ≤ h →
        Main.random_obstacle_placement 0 (Main.border_of h)
          (Z.to_nat (2 * h - 4) :: 0%nat :: g)
        = (Ok (h - 4, - h), g)))
  ∧ ((∀ depth max g origin g',
        ThreeD.random_obstacle_placement depth max g = (Ok origin, g') → 5 ≤ max)
     ∧ (∀ depth max g,
          2 ≤ max ≤ 4 →
          ∃ g', ThreeD.random_obstacle_placement depth max g = (NoFuel, g'))
     ∧ (∀ max g,
          5 ≤ max →
          ThreeD.random_obstacle_placement 0 max
            (Z.to_nat (2 * max - 4) :: 0%nat :: 0%nat :: g)
          = (Ok (max - 4, - max, - max), g))).
Proof.
  split; split_and!.
  - intros. by eapply main_placement_needs_five.
  - intros. by apply main_placement_starves.
  - intros h g Hh. cbn [Main.random_obstacle_placement].
    rewrite main_border_first, decide_True, !Z.opp_involutive by lia.
    replace (2 * h - 4) with (h - 4 - - h) by lia.
    rewrite (randint_draw (- h) (h - 4) (h - 4)) by lia.
    change 0%nat with (Z.to_nat 0).
    replace 0 with (- h - - h) at 1 by lia.
    rewrite (randint_draw (- h) (h - 4) (- h)) by lia.
    rewrite decide_False; [done|].
    unfold Main.blocks_origin. cbn [fst snd]. lia.
  - intros. by eapply threed_placement_needs_five.
  - intros. by apply threed_placement_starves.
  - intros max g Hh. cbn [ThreeD.random_obstacle_placement].
    replace (2 * max - 4) with (max - 4 - - max) by lia.
    rewrite (randint_draw (- max) (max - 4) (max - 4)) by lia.
    change 0%nat with (Z.to_nat 0).
    replace 0 with (- max - - max) at 1 2 by lia.
    rewrite !(randint_draw (- max) (max - 4) (- max)) by lia.
    rewrite decide_False; [done|].
    unfold ThreeD.blocks_origin. cbn [fst snd]. lia.
Qed.

Lemma placement_needs_half_width_five_witness :
  ((2 ≤ 4 ≤ 4)
   ∧ ∃ g', Main.random_obstacle_placement 1000 (Main.border_of 4) [3; 1; 4]%nat
           = (NoFuel, g'))
  ∧ ((5 ≤ 5)
     ∧ Main.random_obstacle_placement 0 (Main.border_of 5)
         (Z.to_nat (2 * 5 - 4) :: 0%nat :: []) = (Ok (5 - 4, - 5), []))
  ∧ ((2 ≤ 4 ≤ 4)
     ∧ ∃ g', ThreeD.random_obstacle_placement 1000 4 [3; 1; 4]%nat = (NoFuel, g'))
  ∧ ((5 ≤ 5)
     ∧ ThreeD.random_obstacle_placement 0 5
         (Z.to_nat (2 * 5 - 4) :: 0%nat :: 0%nat :: []) = (Ok (5 - 4, - 5, - 5), [])).
Proof.
  split_and!; try lia.
  - apply (proj1 (proj2 (proj1 placement_needs_half_width_five)) 1000%nat 4). lia.
  - apply (proj2 (proj2 (proj1 placement_needs_half_width_five)) 5 []). lia.
  - apply (proj1 (proj2 (proj2 placement_needs_half_width_five)) 1000%nat 4). lia.
  - apply (proj2 (proj2 (proj2 placement_needs_half_width_five)) 5 []). lia.
Defined.

Lemma main_h_length_nonneg (size : nat) : 0 ≤ Main.h_length size.
Proof.
  destruct size as [|size]; [by vm_compute|].
  pose proof (main_h_length_positive (S size)). lia.
Qed.

Lemma threed_set_max_nonneg (size : nat) : 0 ≤ ThreeD.set_max size.
Proof.
  destruct size as [|size]; [by vm_compute|].
  pose proof (threed_set_max_positive (S size)). lia.
Qed.

(** ** The constructor *)

Lemma main_small_sizes (size : nat) : (size ≤ 30)%nat → Main.h_length size ≤ 4.
Proof.
  intros Hs.
  assert (Forall (λ s, Main.h_length s ≤ 4) (seq 0 31)) as Hall.
  { apply (bool_decide_unpack _). vm_compute. exact I. }
  rewrite Forall_forall in Hall. apply Hall, elem_of_seq. lia.
Qed.

Lemma threed_small_sizes (size : nat) : (size ≤ 166)%nat → ThreeD.set_max size ≤ 4.
Proof.
  intros Hs.
  assert (Forall (λ s, ThreeD.set_max s ≤ 4) (seq 0 167)) as Hall.
  { apply (bool_decide_unpack _). vm_compute. exact I. }
  rewrite Forall_forall in Hall. apply Hall, elem_of_seq. lia.
Qed.

(** What [rand_avoid] did when it returned: it placed its obstacles, then
    searched. *)
Lemma main_rand_avoid_Ok depth size g_py g_np r :
  Main.rand_avoid depth size g_py g_np = Ok r →
  ∃ obstacles obs_points g_py' g_np',
    Main.generate_obstacles depth (Main.border size) 3 ([], []) g_py
    = (Ok (obstacles, obs_points), g_py')
    ∧ Main.avoid_walk (Main.border size) obs_points (replicate size (0, 0)) 1 g_np
      = (Ok r, g_np').
Proof.
  unfold Main.rand_avoid.
  destruct (Main.generate_obstacles _ _ _ _ _) as [[[obstacles obs_points]| |] g1];
    try done.
  destruct (Main.avoid_walk _ _ _ _ _) as [r' g2] eqn:Hrun. cbn [fst].
  intros ->. eauto 6.
Qed.

Lemma threed_rand_avoid_Ok depth size g_py g_np r :
  ThreeD.rand_avoid depth size g_py g_np = Ok r →
  ∃ obstacles obs_points g_py' g_np',
    ThreeD.generate_obstacles depth (ThreeD.set_max size) 2 ([], []) g_py
    = (Ok (obstacles, obs_points), g_py')
    ∧ ThreeD.avoid_walk (ThreeD.set_max size) obs_points
        (replicate size (0, 0, 0)) 1 g_np
      = (Ok r, g_np').
Proof.
  unfold ThreeD.rand_avoid.
  destruct (ThreeD.generate_obstacles _ _ _ _ _)
    as [[[obstacles obs_points]| |] g1]; try done.
  destruct (ThreeD.avoid_walk _ _ _ _ _) as [r' g2] eqn:Hrun. cbn [fst].
  intros ->. eauto 6.
Qed.

Lemma main_rand_avoid_needs_five depth size g_py g_np r :
  Main.rand_avoid depth size g_py g_np = Ok r → 5 ≤ Main.h_length size.
Proof.
  intros (obstacles & obs_points & g1 & g2 & Hgen & _)%main_rand_avoid_Ok.
  apply main_generate_origins in Hgen as (origins & _ & _ & Hlen & Hall).
  destruct origins as [|o origins]; [done|].
  apply Forall_cons in Hall as [(ga & gb & Hplace) _].
  by eapply main_placement_needs_five.
Qed.

Lemma threed_rand_avoid_needs_five depth size g_py g_np r :
  ThreeD.rand_avoid depth size g_py g_np = Ok r → 5 ≤ ThreeD.set_max size.
Proof.
  intros (obstacles & obs_points & g1 & g2 & Hgen & _)%threed_rand_avoid_Ok.
  apply threed_generate_origins in Hgen as (origins & _ & _ & Hlen & Hall).
  destruct origins as [|o origins]; [done|].
  apply Forall_cons in Hall as [(ga & gb & Hplace) _].
  by eapply threed_placement_needs_five.
Qed.

Lemma main_generate_starves depth (h n : Z) self g :
  2 ≤ h ≤ 4 → 1 ≤ n →
  ∃ g', Main.generate_obstacles depth (Main.border_of h) n self g = (NoFuel, g').
Proof.
  intros Hh Hn. unfold Main.generate_obstacles. destruct self as [obstacles pts].
  rewrite decide_True by lia.
  destruct (Z.to_nat n) as [|k] eqn:Hk; [lia|]. cbn [Main.place_blocks].
  destruct (main_placement_starves depth h g Hh) as [g' ->]. eauto.
Qed.

Lemma threed_generate_starves depth (max n : Z) self g :
  2 ≤ max ≤ 4 → 1 ≤ n →
  ∃ g', ThreeD.generate_obstacles depth max n self g = (NoFuel, g').
Proof.
  intros Hh Hn. unfold ThreeD.generate_obstacles. destruct self as [obstacles pts].
  rewrite decide_True by lia.
  destruct (Z.to_nat n) as [|k] eqn:Hk; [lia|]. cbn [ThreeD.place_blocks].
  destruct (threed_placement_starves depth max g Hh) as [g' ->]. eauto.
Qed.

(** X6. [rand_avoid] answers (with a walk or with [False]) only when the
    computed half-width is at least 5, that is for at least 31 steps in
    main.py and at least 167 steps in 3d.py.  Below that its obstacles
    cannot be placed: the call raises [ValueError] (half-width below 2) or
    uses up the recursion budget of the placer (half-width 2 to 4), whatever
    the budget and the random sources. *)
Theorem constructor_needs_room_for_obstacles :
  (∀ depth size g_py g_np,
     (∀ r, Main.rand_avoid depth size g_py g_np = Ok r →
           5 ≤ Main.h_length size ∧ (31 ≤ size)%nat)
     ∧ ((size ≤ 30)%nat →
        Main.rand_avoid depth size g_py g_np = Exn ValueError
        ∨ Main.rand_avoid depth size g_py g_np = NoFuel))
  ∧ (∀ depth size g_py g_np,
       (∀ r, ThreeD.rand_avoid depth size g_py g_np = Ok r →
             5 ≤ ThreeD.set_max size ∧ (167 ≤ size)%nat)
       ∧ ((size ≤ 166)%nat →
          ThreeD.rand_avoid depth size g_py g_np = Exn ValueError
          ∨ ThreeD.rand_avoid depth size g_py g_np = NoFuel)).
Proof.
  split; intros depth size g_py g_np; split.
  - intros r Hrun.
    pose proof (main_rand_avoid_needs_five _ _ _ _ _ Hrun) as Hh.
    split; [done|]. destruct (decide (size ≤ 30)%nat) as [Hs|]; [|lia].
    apply main_small_sizes in Hs. lia.
  - intros Hs%main_small_sizes. pose proof (main_h_length_nonneg size) as H0.
    destruct (decide (Main.h_length size < 2)) as [Hlt|].
    + left. by apply main_rand_avoid_raises.
    + right. unfold Main.rand_avoid, Main.border.
      by destruct (main_generate_starves depth (Main.h_length size) 3 ([], []) g_py)
        as [g' ->]; [lia..|].
  - intros r Hrun.
    pose proof (threed_rand_avoid_needs_five _ _ _ _ _ Hrun) as Hh.
    split; [done|]. destruct (decide (size ≤ 166)%nat) as [Hs|]; [|lia].
    apply threed_small_sizes in Hs. lia.
  - intros Hs%threed_small_sizes.
    destruct (decide (ThreeD.set_max size < 2)) as [Hlt|].
    + left. by apply threed_rand_avoid_raises.
    + right. unfold ThreeD.rand_avoid.
      by destruct (threed_generate_starves depth (ThreeD.set_max size) 2 ([], []) g_py)
        as [g' ->]; [lia..|].
Qed.

Lemma constructor_needs_room_for_obstacles_witness :
  (∃ r, Main.rand_avoid 0 31 [5; 0; 5; 0; 5; 0]%nat [] = Ok r
        ∧ 5 ≤ Main.h_length 31 ∧ (31 ≤ 31)%nat)
  ∧ ((30 ≤ 30)%nat
     ∧ (Main.rand_avoid 1000 30 [5; 0; 5; 0; 5; 0]%nat [] = Exn ValueError
        ∨ Main.rand_avoid 1000 30 [5; 0; 5; 0; 5; 0]%nat [] = NoFuel))
  ∧ (∃ r, ThreeD.rand_avoid 0 167 [5; 0; 0; 5; 0; 0]%nat [] = Ok r
          ∧ 5 ≤ ThreeD.set_max 167 ∧ (167 ≤ 167)%nat)
  ∧ ((166 ≤ 166)%nat
     ∧ (ThreeD.rand_avoid 1000 166 [5; 0; 0; 5; 0; 0]%nat [] = Exn ValueError
        ∨ ThreeD.rand_avoid 1000 166 [5; 0; 0; 5; 0; 0]%nat [] = NoFuel)).
Proof.
  split_and!.
  - eexists. split; [vm_compute; reflexivity|].
    eapply (proj1 (proj1 constructor_needs_room_for_obstacles 0%nat 31%nat
                     [5; 0; 5; 0; 5; 0]%nat [])).
    vm_compute; reflexivity.
  - lia.
  - apply (proj2 (proj1 constructor_needs_room_for_obstacles 1000%nat 30%nat
                    [5; 0; 5; 0; 5; 0]%nat [])).
    lia.
  - eexists. split; [vm_compute; reflexivity|].
    eapply (proj1 (proj2 constructor_needs_room_for_obstacles 0%nat 167%nat
                     [5; 0; 0; 5; 0; 0]%nat [])).
    vm_compute; reflexivity.
  - lia.
  - apply (proj2 (proj2 constructor_needs_room_for_obstacles 1000%nat 166%nat
                    [5; 0; 0; 5; 0; 0]%nat [])).
    lia.
Defined.

(** X7. Whenever [rand_avoid] returns a walk, the walk has exactly [size]
    pairwise distinct points, starts at the origin, moves by single lattice
    steps, stays strictly inside the computed half-width, and avoids every
    cell of the three (main.py) or two (3d.py) obstacles that the same call
    placed. *)
Theorem constructed_walk_is_valid :
  (∀ depth size g_py g_np w,
     Main.rand_avoid depth size g_py g_np = Ok (Some w) →
     length w = size ∧ NoDup w ∧ stepwise (0, 0) unit_step2 w
     ∧ Forall (inside2 (Main.h_length size)) w
     ∧ ∃ obstacles obs_points g_py',
         Main.generate_obstacles depth (Main.border size) 3 ([], []) g_py
         = (Ok (obstacles, obs_points), g_py')
         ∧ length obstacles = 3%nat
         ∧ Forall (λ p, p ∉ obs_points) w)
  ∧ (∀ depth size g_py g_np w,
       ThreeD.rand_avoid depth size g_py g_np = Ok (Some w) →
       length w = size ∧ NoDup w ∧ stepwise (0, 0, 0) unit_step3 w
       ∧ Forall (inside3 (ThreeD.set_max size)) w
       ∧ ∃ obstacles obs_points g_py',
           ThreeD.generate_obstacles depth (ThreeD.set_max size) 2 ([], []) g_py
           = (Ok (obstacles, obs_points), g_py')
           ∧ length obstacles = 2%nat
           ∧ Forall (λ p, p ∉ obs_points) w).
Proof.
  split; intros depth size g_py g_np w Hrun.
  - pose proof (main_rand_avoid_needs_five _ _ _ _ _ Hrun) as Hh.
    apply main_rand_avoid_Ok in Hrun
      as (obstacles & obs_points & g1 & g2 & Hgen & Hrun).
    split_and!.
    + by eapply main_walk_length.
    + by eapply main_walk_nodup.
    + by eapply main_walk_stepwise.
    + eapply main_walk_inside; [done..|lia].
    + exists obstacles, obs_points, g1. split_and!; [done| |].
      * by apply main_generate_origins in Hgen as (origins & -> & _ & Hlen & _);
          rewrite length_fmap.
      * eapply main_walk_avoids_obstacles; [done|].
        by eapply main_generated_origin_free.
  - pose proof (threed_rand_avoid_needs_five _ _ _ _ _ Hrun) as Hh.
    apply threed_rand_avoid_Ok in Hrun
      as (obstacles & obs_points & g1 & g2 & Hgen & Hrun).
    split_and!.
    + by eapply threed_walk_length.
    + by eapply threed_walk_nodup.
    + by eapply threed_walk_stepwise.
    + eapply threed_walk_inside; [done|lia].
    + exists obstacles, obs_points, g1. split_and!; [done| |].
      * by apply threed_generate_origins in Hgen as (origins & -> & _ & Hlen & _);
          rewrite length_fmap.
      * eapply threed_walk_avoids_obstacles; [done|].
        by eapply threed_generated_origin_free.
Qed.

Lemma constructed_walk_is_valid_witness :
  (∃ w, Main.rand_avoid 0 31 [5; 0; 5; 0; 5; 0]%nat [] = Ok (Some w)
        ∧ length w = 31%nat ∧ NoDup w)
  ∧ (∃ w, ThreeD.rand_avoid 0 167 [5; 0; 0; 5; 0; 0]%nat [] = Ok (Some w)
          ∧ length w = 167%nat ∧ NoDup w).
Proof.
  split; eexists; (split; [vm_compute; reflexivity|]).
  - split.
    + eapply (proj1 constructed_walk_is_valid 0%nat 31%nat [5; 0; 5; 0; 5; 0]%nat []).
      vm_compute; reflexivity.
    + eapply (proj1 constructed_walk_is_valid 0%nat 31%nat [5; 0; 5; 0; 5; 0]%nat []).
      vm_compute; reflexivity.
  - split.
    + eapply (proj2 constructed_walk_is_valid 0%nat 167%nat [5; 0; 0; 5; 0; 0]%nat []).
      vm_compute; reflexivity.
    + eapply (proj2 constructed_walk_is_valid 0%nat 167%nat [5; 0; 0; 5; 0; 0]%nat []).
      vm_compute; reflexivity.
Defined.

(** ** Growth of the bound *)

Lemma nearest_root_mono d n1 n2 r1 r2 :
  0 < d → n1 ≤ n2 → nearest_root d n1 r1 → nearest_root d n2 r2 → r1 ≤ r2.
Proof.
  intros Hd Hn (Hr1 & Hlo1 & _) (Hr2 & _ & Hhi2).
  destruct (decide (r1 ≤ r2)) as [|Hgt]; [done|]. exfalso.
  pose proof (Z.pow_le_mono_l (2 * r2 + 1) (2 * r1 - 1) d ltac:(lia)) as Hpow.
  pose proof (Z.pow_pos_nonneg 2 d ltac:(lia) ltac:(lia)) as H2.
  assert (2 ^ d * n1 ≤ 2 ^ d * n2) by nia. lia.
Qed.

Lemma nearest_eighth_mono r1 r2 h1 h2 :
  r1 < r2 → nearest_eighth (7 * r1) h1 → nearest_eighth (7 * r2) h2 → h1 ≤ h2.
Proof. intros Hr [H1 _] [H2 _]. lia. Qed.

Lemma seven_eighths_mono r1 r2 :
  r1 ≤ r2 →
  py_round (inject_Z r1 * (7 # 4) / inject_Z 2)%Q
  ≤ py_round (inject_Z r2 * (7 # 4) / inject_Z 2)%Q.
Proof.
  intros Hr. destruct (decide (r1 = r2)) as [->|]; [done|].
  eapply (nearest_eighth_mono r1 r2); [lia|apply py_round_seven_eighths..].
Qed.

Lemma round_sqrt_mono n1 n2 : 0 ≤ n1 ≤ n2 → round_sqrt n1 ≤ round_sqrt n2.
Proof.
  intros Hn. destruct (decide (n1 = 0)) as [->|].
  - destruct (decide (n2 = 0)) as [->|]; [done|].
    change (round_sqrt 0) with 0.
    by destruct (round_sqrt_nearest n2 ltac:(lia)) as [? _].
  - eapply (nearest_root_mono 2 n1 n2); [lia|lia|apply round_sqrt_nearest; lia..].
Qed.

Lemma round_cbrt_mono n1 n2 : 0 ≤ n1 ≤ n2 → round_cbrt n1 ≤ round_cbrt n2.
Proof.
  intros Hn. destruct (decide (n1 = 0)) as [->|].
  - destruct (decide (n2 = 0)) as [->|]; [done|].
    change (round_cbrt 0) with 0.
    by destruct (round_cbrt_nearest n2 ltac:(lia)) as [? _].
  - eapply (nearest_root_mono 3 n1 n2); [lia|lia|apply round_cbrt_nearest; lia..].
Qed.

(** X8. Among step counts up to [root_exact_bound] (2 ^ 40, where the
    float64 roots round as the real ones) the computed half-width never
    shrinks when the step count grows, in main.py and in 3d.py: more steps
    never get a smaller region. *)
Theorem half_width_grows_with_steps (size1 size2 : nat) :
  (size1 ≤ size2)%nat → Z.of_nat size2 ≤ root_exact_bound →
  Main.h_length size1 ≤ Main.h_length size2
  ∧ ThreeD.set_max size1 ≤ ThreeD.set_max size2.
Proof.
  intros Hs _. split.
  - apply seven_eighths_mono, round_sqrt_mono. lia.
  - apply seven_eighths_mono, round_cbrt_mono. lia.
Qed.

Lemma half_width_grows_with_steps_witness :
  (50 ≤ 225)%nat ∧ 225 ≤ root_exact_bound
  ∧ Main.h_length 50 ≤ Main.h_length 225
  ∧ ThreeD.set_max 50 ≤ ThreeD.set_max 225.
Proof.
  split; [lia|]. split; [by vm_compute|].
  apply (half_width_grows_with_steps 50 225); [lia|by vm_compute].
Defined.

(** ** The candidates of one level, exactly *)

Lemma main_options_nodup : NoDup Main.options.
Proof. apply (bool_decide_unpack _). vm_compute. exact I. Qed.

Lemma threed_options_nodup : NoDup ThreeD.options.
Proof. apply (bool_decide_unpack _). vm_compute. exact I. Qed.

Lemma main_add_inj cur : Inj (=) (=) (Main.add cur).
Proof.
  intros [a b] [c d]. unfold Main.add. cbn [fst snd]. intros [= ? ?].
  f_equal; lia.
Qed.

Lemma threed_add_inj cur : Inj (=) (=) (ThreeD.add cur).
Proof.
  intros [[a b] c] [[d e] f]. unfold ThreeD.add. cbn [fst snd]. intros [= ? ? ?].
  repeat f_equal; lia.
Qed.

(** X9. [possible_steps] returns, in some order and each exactly once, the
    neighbours of the point in slot [i] that are one lattice step away, are
    not in any slot of the buffer, and pass the border (or bound) and
    obstacle tests; beyond the buffer it raises [IndexError]. *)
Theorem possible_steps_are_the_legal_neighbours :
  (∀ edges obs steps (i : nat) g,
     match steps !! i with
     | None => Main.possible_steps edges obs steps i g = (Exn IndexError, g)
     | Some cur =>
         ∃ cands g',
           Main.possible_steps edges obs steps i g = (Ok cands, g')
           ∧ NoDup cands
           ∧ ∀ c, c ∈ cands ↔ (legal_move2 edges obs cur c ∧ c ∉ steps)
     end)
  ∧ (∀ max obs steps (i : nat) g,
       match steps !! i with
       | None => ThreeD.possible_steps max obs steps i g = (Exn IndexError, g)
       | Some cur =>
           ∃ cands g',
             ThreeD.possible_steps max obs steps i g = (Ok cands, g')
             ∧ NoDup cands
             ∧ ∀ c, c ∈ cands ↔ (legal_move3 max obs cur c ∧ c ∉ steps)
       end).
Proof.
  split.
  - intros edges obs steps i g. destruct (steps !! i) as [cur|] eqn:Hcur.
    + destruct (main_possible_steps_answers edges obs steps i g)
        as (cands & g' & Hps); [by eapply lookup_lt_Some|].
      exists cands, g'. split_and!; [done| |].
      * revert Hps. unfold Main.possible_steps. rewrite Hcur.
        destruct (shuffle _ g) as [l g1] eqn:Hsh. intros [= <- <-].
        pose proof (shuffle_perm (filter (λ temp, (temp ∉ steps)
          ∧ (temp ∉ Main.columns edges) ∧ (temp ∉ obs))
          (Main.add cur <$> Main.options)) g) as Hperm.
        rewrite Hsh in Hperm. cbn [fst] in Hperm. rewrite Hperm.
        apply NoDup_filter, NoDup_fmap_2; [apply main_add_inj|].
        apply main_options_nodup.
      * intros c. split.
        -- intros Hc.
           destruct (main_possible_steps_elem _ _ _ _ _ _ _ _ Hps Hc)
             as (cur' & d & Hcur' & Hd & -> & Hnew & Hedge & Hobs).
           assert (cur' = cur) as -> by congruence.
           split; [|done]. split_and!; [by apply main_option_is_step|done..].
        -- intros [Hmove Hnew]. by eapply main_possible_steps_complete.
    + unfold Main.possible_steps. by rewrite Hcur.
  - intros max obs steps i g. destruct (steps !! i) as [cur|] eqn:Hcur.
    + destruct (threed_possible_steps_answers max obs steps i g)
        as (cands & g' & Hps); [by eapply lookup_lt_Some|].
      exists cands, g'. split_and!; [done| |].
      * revert Hps. unfold ThreeD.possible_steps. rewrite Hcur.
        destruct (shuffle _ g) as [l g1] eqn:Hsh. intros [= <- <-].
        pose proof (shuffle_perm (filter (λ temp : ThreeD.point, (temp ∉ steps)
          ∧ (Z.abs temp.1.1 < max ∧ Z.abs temp.1.2 < max ∧ Z.abs temp.2 < max)
          ∧ (temp ∉ obs)) (ThreeD.add cur <$> ThreeD.options)) g) as Hperm.
        rewrite Hsh in Hperm. cbn [fst] in Hperm. rewrite Hperm.
        apply NoDup_filter, NoDup_fmap_2; [apply threed_add_inj|].
        apply threed_options_nodup.
      * intros c. split.
        -- intros Hc.
           destruct (threed_possible_steps_elem _ _ _ _ _ _ _ _ Hps Hc)
             as (cur' & d & Hcur' & Hd & -> & Hnew & Hin & Hobs).
           assert (cur' = cur) as -> by congruence.
           split; [|done]. split_and!; [by apply threed_option_is_step|done..].
        -- intros [Hmove Hnew]. by eapply threed_possible_steps_complete.
    + unfold ThreeD.possible_steps. by rewrite Hcur.
Qed.

(** ** The border lines *)

Lemma lookup_range (a b : Z) (k : nat) :
  Z.of_nat k < b - a → range a b !! k = Some (a + Z.of_nat k).
Proof. intros. unfold range. by apply lookup_seqZ_lt. Qed.

Lemma lookup_range_down (a b : Z) (k : nat) :
  Z.of_nat k < a - b → range_down a b !! k = Some (a - Z.of_nat k).
Proof.
  intros. unfold range_down. rewrite list_lookup_fmap, lookup_seqZ_lt by done.
  simpl. f_equal; lia.
Qed.

Lemma length_range (a b : Z) : length (range a b) = Z.to_nat (b - a).
Proof. unfold range. apply length_seqZ. Qed.

Lemma length_range_down (a b : Z) : length (range_down a b) = Z.to_nat (a - b).
Proof. unfold range_down. by rewrite length_fmap, length_seqZ. Qed.

(** A line from [p] to [q]: first point, last point, no gap in between. *)
Lemma line_app {P} (step : P → P → Prop) (l1 l2 : list P) p q q' r :
  l1 !! 0%nat = Some p ∧ l1 !! (length l1 - 1)%nat = Some q ∧ continuous step l1 →
  l2 !! 0%nat = Some q' ∧ l2 !! (length l2 - 1)%nat = Some r ∧ continuous step l2 →
  q = q' ∨ step q q' →
  (l1 ++ l2) !! 0%nat = Some p
  ∧ (l1 ++ l2) !! (length (l1 ++ l2) - 1)%nat = Some r
  ∧ continuous step (l1 ++ l2).
Proof.
  intros (Hp & Hq & Hc1) (Hq' & Hr & Hc2) Hjoin.
  pose proof (lookup_lt_Some _ _ _ Hp) as Hl1.
  pose proof (lookup_lt_Some _ _ _ Hq') as Hl2.
  split_and!.
  - by rewrite lookup_app_l.
  - rewrite length_app, lookup_app_r by lia.
    by replace (length l1 + length l2 - 1 - length l1)%nat
      with (length l2 - 1)%nat by lia.
  - intros k a b Ha Hb. destruct (decide (S k < length l1)%nat).
    + rewrite lookup_app_l in Ha, Hb by lia. eauto.
    + destruct (decide (S k = length l1)) as [Hk|].
      * rewrite lookup_app_l in Ha by lia. rewrite lookup_app_r in Hb by lia.
        replace k with (length l1 - 1)%nat in Ha by lia.
        replace (S k - length l1)%nat with 0%nat in Hb by lia. congruence.
      * rewrite lookup_app_r in Ha, Hb by lia.
        replace (S k - length l1)%nat with (S (k - length l1)) in Hb by lia. eauto.
Qed.

Lemma line_range {P} (step : P → P → Prop) (f : Z → P) (a b : Z) :
  a < b → (∀ x, step (f x) (f (x + 1))) →
  (f <$> range a b) !! 0%nat = Some (f a)
  ∧ (f <$> range a b) !! (length (f <$> range a b) - 1)%nat = Some (f (b - 1))
  ∧ continuous step (f <$> range a b).
Proof.
  intros Hab Hstep. rewrite length_fmap, length_range. split_and!.
  - rewrite list_lookup_fmap, lookup_range by lia. simpl. do 2 f_equal; lia.
  - rewrite list_lookup_fmap, lookup_range by lia. simpl. do 2 f_equal; lia.
  - intros k p q. rewrite !list_lookup_fmap. intros Hp Hq.
    assert (Z.of_nat (S k) < b - a) as Hk.
    { destruct (range a b !! S k) eqn:Hl; [|done].
      apply lookup_lt_Some in Hl. rewrite length_range in Hl. lia. }
    rewrite lookup_range in Hp, Hq by lia. simpl in Hp, Hq.
    injection Hp as <-. injection Hq as <-. right.
    replace (a + Z.of_nat (S k)) with (a + Z.of_nat k + 1) by lia. apply Hstep.
Qed.

Lemma line_range_down {P} (step : P → P → Prop) (f : Z → P) (a b : Z) :
  b < a → (∀ x, step (f x) (f (x - 1))) →
  (f <$> range_down a b) !! 0%nat = Some (f a)
  ∧ (f <$> range_down a b) !! (length (f <$> range_down a b) - 1)%nat
    = Some (f (b + 1))
  ∧ continuous step (f <$> range_down a b).
Proof.
  intros Hab Hstep. rewrite length_fmap, length_range_down. split_and!.
  - rewrite list_lookup_fmap, lookup_range_down by lia. simpl. do 2 f_equal; lia.
  - rewrite list_lookup_fmap, lookup_range_down by lia. simpl. do 2 f_equal; lia.
  - intros k p q. rewrite !list_lookup_fmap. intros Hp Hq.
    assert (Z.of_nat (S k) < a - b) as Hk.
    { destruct (range_down a b !! S k) eqn:Hl; [|done].
      apply lookup_lt_Some in Hl. rewrite length_range_down in Hl. lia. }
    rewrite lookup_range_down in Hp, Hq by lia. simpl in Hp, Hq.
    injection Hp as <-. injection Hq as <-. right.
    replace (a - Z.of_nat (S k)) with (a - Z.of_nat k - 1) by lia. apply Hstep.
Qed.



Lemma zip3_first {A B C} (l : list A) (n : nat) (b : B) (c : C) :
  length l = n →
  zip (zip l (replicate n b)) (replicate n c) = (λ x, (x, b, c)) <$> l.
Proof. intros <-. induction l as [|x l IH]; simpl; [done|]. by rewrite IH. Qed.

Lemma zip3_second {A B C} (l : list B) (n : nat) (a : A) (c : C) :
  length l = n →
  zip (zip (replicate n a) l) (replicate n c) = (λ y, (a, y, c)) <$> l.
Proof. intros <-. induction l as [|x l IH]; simpl; [done|]. by rewrite IH. Qed.

Lemma zip3_third {A B C} (l : list C) (n : nat) (a : A) (b : B) :
  length l = n →
  zip (zip (replicate n a) (replicate n b)) l = (λ z, (a, b, z)) <$> l.
Proof. intros <-. induction l as [|x l IH]; simpl; [done|]. by rewrite IH. Qed.

Lemma threed_border_columns (max : Z) :
  ThreeD.columns (ThreeD.show_border max) =
    ((λ x, (x, - max, - max)) <$> range_down max (- max - 1))
    ++ ((λ z, (- max, - max, z)) <$> range (- max) (max + 1))
    ++ ((λ y, (- max, y, max)) <$> range (- max) (max + 1))
    ++ ((λ x, (x, max, max)) <$> range (- max) (max + 1))
    ++ ((λ z, (max, max, z)) <$> range_down max (- max - 1))
    ++ ((λ y, (max, y, - max)) <$> range_down max (- max - 1)).
Proof.
  unfold ThreeD.columns, ThreeD.show_border.
  pose proof (length_range_down_up max) as Hdown.
  set (up := range (- max) (max + 1)) in *.
  set (down := range_down max (- max - 1)) in *.
  cbn [fst snd].
  assert (length up = length down) as Hup by done.
  rewrite !zip_app
    by (rewrite ?length_zip, ?length_replicate, ?Hup, ?Nat.min_id; done).
  rewrite !zip3_first, !zip3_second, !zip3_third by done. done.
Qed.

Lemma threed_border_line (max : Z) :
  0 ≤ max →
  let pts := ThreeD.columns (ThreeD.show_border max) in
  pts !! 0%nat = Some (max, - max, - max)
  ∧ pts !! (length pts - 1)%nat = Some (max, - max, - max)
  ∧ continuous unit_step3 pts.
Proof.
  intros Hh. cbv zeta. rewrite threed_border_columns.
  replace (Some (max, - max, - max)) with (Some (max, - max - 1 + 1, - max))
    at 2 by (do 3 f_equal; lia).
  eapply line_app;
    [|eapply line_app;
       [|eapply line_app; [|eapply line_app; [|eapply line_app|]|]|]|].
  - apply (line_range_down unit_step3 (λ x, (x, - max, - max))); [lia|].
    intros x. unfold unit_step3. simpl. lia.
  - apply (line_range unit_step3 (λ z, (- max, - max, z))); [lia|].
    intros z. unfold unit_step3. simpl. lia.
  - apply (line_range unit_step3 (λ y, (- max, y, max))); [lia|].
    intros y. unfold unit_step3. simpl. lia.
  - apply (line_range unit_step3 (λ x, (x, max, max))); [lia|].
    intros x. unfold unit_step3. simpl. lia.
  - apply (line_range_down unit_step3 (λ z, (max, max, z))); [lia|].
    intros z. unfold unit_step3. simpl. lia.
  - apply (line_range_down unit_step3 (λ y, (max, y, - max))); [lia|].
    intros y. unfold unit_step3. simpl. lia.
  - left. repeat f_equal; lia.
  - left. repeat f_equal; lia.
  - left. repeat f_equal; lia.
  - left. repeat f_equal; lia.
  - left. repeat f_equal; lia.
Qed.

Lemma threed_border_on_edges (max : Z) (p : ThreeD.point) :
  0 ≤ max → p ∈ ThreeD.columns (ThreeD.show_border max) → on_cube_edge max p.
Proof.
  intros Hh. rewrite threed_border_columns, !elem_of_app, !list_elem_of_fmap.
  unfold on_cube_edge.
  intros [(a & -> & Ha%elem_of_range_down)
         |[(a & -> & Ha%elem_of_range)
          |[(a & -> & Ha%elem_of_range)
           |[(a & -> & Ha%elem_of_range)
            |[(a & -> & Ha%elem_of_range_down)
             |(a & -> & Ha%elem_of_range_down)]]]]]; cbn [fst snd]; lia.
Qed.

(** X11. The outline that 3d.py draws for any step count has three rows of
    [6 * (2 * H + 1)] entries; every point lies on an edge of the cube of
    half-width [H]; read in order the points form a line without gaps that
    starts and ends at the corner [(H, -H, -H)]. *)
Theorem show_border_is_closed_line_on_cube_edges (size : nat) :
  let H := ThreeD.set_max size in
  let pts := ThreeD.columns (ThreeD.show_border H) in
  length (ThreeD.show_border H).1.1 = Z.to_nat (6 * (2 * H + 1))
  ∧ length (ThreeD.show_border H).1.2 = Z.to_nat (6 * (2 * H + 1))
  ∧ length (ThreeD.show_border H).2 = Z.to_nat (6 * (2 * H + 1))
  ∧ (∀ p, p ∈ pts → on_cube_edge H p)
  ∧ continuous unit_step3 pts
  ∧ pts !! 0%nat = Some (H, - H, - H) ∧ last pts = Some (H, - H, - H).
Proof.
  cbv zeta.
  pose proof (threed_set_max_nonneg size) as Hh.
  set (h := ThreeD.set_max size) in *. clearbody h.
  destruct (threed_border_line h Hh) as (Hfirst & Hlast & Hcont).
  split_and!; [| | | |done|done|].
  - unfold ThreeD.show_border. cbn [fst].
    rewrite !length_app, !length_replicate, !length_range, !length_range_down. lia.
  - unfold ThreeD.show_border. cbn [fst snd].
    rewrite !length_app, !length_replicate, !length_range, !length_range_down. lia.
  - unfold ThreeD.show_border. cbn [snd].
    rewrite !length_app, !length_replicate, !length_range, !length_range_down. lia.
  - intros p. by apply threed_border_on_edges.
  - rewrite last_lookup. rewrite <- Hlast. f_equal. lia.
Qed.

(** ** What the blocking test keeps free, and what the placer appends *)

(** X12. The blocking test protects more than the origin: no generated
    obstacle covers any cell whose coordinates all lie in [-1 .. 0], so the
    neighbours [(-1, 0)] and [(0, -1)] of the origin (and their 3D
    counterparts) are never obstacle cells. *)
Theorem obstacles_leave_origin_block_free :
  (∀ depth border n g obstacles obs_points g' p,
     Main.generate_obstacles depth border n ([], []) g
     = (Ok (obstacles, obs_points), g') →
     (-1 ≤ p.1 ≤ 0) ∧ (-1 ≤ p.2 ≤ 0) →
     p ∉ obs_points)
  ∧ (∀ depth max n g obstacles obs_points g' p,
       ThreeD.generate_obstacles depth max n ([], []) g
       = (Ok (obstacles, obs_points), g') →
       (-1 ≤ p.1.1 ≤ 0) ∧ (-1 ≤ p.1.2 ≤ 0) ∧ (-1 ≤ p.2 ≤ 0) →
       p ∉ obs_points).
Proof.
  split.
  - intros depth border n g obstacles obs_points g' p
      [Hall ->]%main_generate_placed Hp (ob & Hin & Hob)%list_elem_of_bind.
    rewrite Forall_forall in Hall. destruct (Hall ob Hob) as (origin & -> & Hfree).
    apply main_elem_of_block in Hin. apply Hfree.
    unfold Main.blocks_origin. lia.
  - intros depth max n g obstacles obs_points g' p
      [Hall ->]%threed_generate_placed Hp (ob & Hin & Hob)%list_elem_of_bind.
    rewrite Forall_forall in Hall. destruct (Hall ob Hob) as (origin & -> & Hfree).
    apply threed_elem_of_block in Hin. apply Hfree.
    unfold ThreeD.blocks_origin. lia.
Qed.

Lemma obstacles_leave_origin_block_free_witness :
  (Main.generate_obstacles 0 (Main.border_of 5) 1 ([], []) [6; 2]%nat
   = (Ok ([Main.block (1, -3)], Main.columns (Main.block (1, -3))), [])
   ∧ (-1 ≤ (0, -1).1 ≤ 0) ∧ (-1 ≤ (0, -1).2 ≤ 0)
   ∧ (0, -1) ∉ Main.columns (Main.block (1, -3)))
  ∧ (ThreeD.generate_obstacles 0 5 1 ([], []) [6; 2; 2]%nat
     = (Ok ([ThreeD.block (1, -3, -3)], ThreeD.columns (ThreeD.block (1, -3, -3))), [])
     ∧ (-1 ≤ (0, -1, -1).1.1 ≤ 0) ∧ (-1 ≤ (0, -1, -1).1.2 ≤ 0)
       ∧ (-1 ≤ (0, -1, -1).2 ≤ 0)
     ∧ (0, -1, -1) ∉ ThreeD.columns (ThreeD.block (1, -3, -3))).
Proof.
  split; (split; [vm_compute; reflexivity|]).
  - split_and!; [cbn [fst snd]; lia..|].
    eapply (proj1 obstacles_leave_origin_block_free 0%nat (Main.border_of 5) 1
              [6; 2]%nat [Main.block (1, -3)] (Main.columns (Main.block (1, -3))) []).
    + vm_compute; reflexivity.
    + cbn [fst snd]; lia.
  - split_and!; [cbn [fst snd]; lia..|].
    eapply (proj2 obstacles_leave_origin_block_free 0%nat 5 1 [6; 2; 2]%nat
              [ThreeD.block (1, -3, -3)]
              (ThreeD.columns (ThreeD.block (1, -3, -3))) []).
    + vm_compute; reflexivity.
    + cbn [fst snd]; lia.
Defined.

(** X13. What [generate_obstacles] does to an object that already holds
    obstacles, when it returns.  With count 0 nothing changes and nothing is
    drawn.  With a positive count it appends that many blocks and then
    appends to the cell list the cells of all obstacles, the earlier ones
    again included.  A negative count places nothing; main.py (guard
    [n != 0]) still re-appends the cells of the stored obstacles, 3d.py
    (guard [n > 0]) leaves the object as it is. *)
Theorem generate_obstacles_appends :
  (∀ depth border n obstacles pts g obstacles' pts' g',
     Main.generate_obstacles depth border n (obstacles, pts) g
     = (Ok (obstacles', pts'), g') →
     (n = 0 ∧ obstacles' = obstacles ∧ pts' = pts ∧ g' = g)
     ∨ (n ≠ 0
        ∧ ∃ origins,
            length origins = Z.to_nat n
            ∧ obstacles' = obstacles ++ (Main.block <$> origins)
            ∧ pts' = pts ++ (ob ← obstacles'; Main.columns ob)))
  ∧ (∀ depth max n obstacles pts g obstacles' pts' g',
       ThreeD.generate_obstacles depth max n (obstacles, pts) g
       = (Ok (obstacles', pts'), g') →
       (n ≤ 0 ∧ obstacles' = obstacles ∧ pts' = pts ∧ g' = g)
       ∨ (0 < n
          ∧ ∃ origins,
              length origins = Z.to_nat n
              ∧ obstacles' = obstacles ++ (ThreeD.block <$> origins)
              ∧ pts' = pts ++ (ob ← obstacles'; ThreeD.columns ob))).
Proof.
  split.
  - intros depth border n obstacles pts g obstacles' pts' g'.
    unfold Main.generate_obstacles. case_decide as Hn.
    + destruct (Main.place_blocks _ _ _ _ _) as [[obs1| |] g1] eqn:Hplace; try done.
      intros [= <- <- <-]. right. split; [done|].
      apply main_place_blocks_origins in Hplace as (origins & -> & Hlen & _).
      by exists origins.
    + intros [= <- <- <-]. left. split_and!; [lia|done..].
  - intros depth max n obstacles pts g obstacles' pts' g'.
    unfold ThreeD.generate_obstacles. case_decide as Hn.
    + destruct (ThreeD.place_blocks _ _ _ _ _) as [[obs1| |] g1] eqn:Hplace;
        try done.
      intros [= <- <- <-]. right. split; [done|].
      apply threed_place_blocks_origins in Hplace as (origins & -> & Hlen & _).
      by exists origins.
    + intros [= <- <- <-]. left. split_and!; [lia|done..].
Qed.

Lemma generate_obstacles_appends_witness :
  (Main.generate_obstacles 0 (Main.border_of 5) 1
     ([Main.block (1, -5)], Main.columns (Main.block (1, -5))) [6; 2]%nat
   = (Ok ([Main.block (1, -5); Main.block (1, -3)],
          Main.columns (Main.block (1, -5))
          ++ (Main.columns (Main.block (1, -5)) ++ Main.columns (Main.block (1, -3)))),
      [])
   ∧ ((1 = 0 ∧ [Main.block (1, -5); Main.block (1, -3)] = [Main.block (1, -5)]
       ∧ Main.columns (Main.block (1, -5))
         ++ (Main.columns (Main.block (1, -5)) ++ Main.columns (Main.block (1, -3)))
         = Main.columns (Main.block (1, -5))
       ∧ [] = [6; 2]%nat)
      ∨ (1 ≠ 0
         ∧ ∃ origins,
             length origins = Z.to_nat 1
             ∧ [Main.block (1, -5); Main.block (1, -3)]
               = [Main.block (1, -5)] ++ (Main.block <$> origins)
             ∧ Main.columns (Main.block (1, -5))
               ++ (Main.columns (Main.block (1, -5))
                   ++ Main.columns (Main.block (1, -3)))
               = Main.columns (Main.block (1, -5))
                 ++ (ob ← [Main.block (1, -5); Main.block (1, -3)];
                     Main.columns ob))))
  ∧ (ThreeD.generate_obstacles 0 5 (-1)
       ([ThreeD.block (1, -5, -5)], ThreeD.columns (ThreeD.block (1, -5, -5))) [7]%nat
     = (Ok ([ThreeD.block (1, -5, -5)], ThreeD.columns (ThreeD.block (1, -5, -5))),
        [7]%nat)
     ∧ ((-1 ≤ 0 ∧ [ThreeD.block (1, -5, -5)] = [ThreeD.block (1, -5, -5)]
         ∧ ThreeD.columns (ThreeD.block (1, -5, -5))
           = ThreeD.columns (ThreeD.block (1, -5, -5))
         ∧ [7]%nat = [7]%nat)
        ∨ (0 < -1
           ∧ ∃ origins,
               length origins = Z.to_nat (-1)
               ∧ [ThreeD.block (1, -5, -5)]
                 = [ThreeD.block (1, -5, -5)] ++ (ThreeD.block <$> origins)
               ∧ ThreeD.columns (ThreeD.block (1, -5, -5))
                 = ThreeD.columns (ThreeD.block (1, -5, -5))
                   ++ (ob ← [ThreeD.block (1, -5, -5)]; ThreeD.columns ob)))).
Proof.
  split; (split; [vm_compute; reflexivity|]).
  - apply (proj1 generate_obstacles_appends 0%nat (Main.border_of 5) 1
             [Main.block (1, -5)] (Main.columns (Main.block (1, -5))) [6; 2]%nat
             [Main.block (1, -5); Main.block (1, -3)]
             (Main.columns (Main.block (1, -5))
              ++ (Main.columns (Main.block (1, -5))
                  ++ Main.columns (Main.block (1, -3))))
             []).
    vm_compute; reflexivity.
  - apply (proj2 generate_obstacles_appends 0%nat 5 (-1)
             [ThreeD.block (1, -5, -5)] (ThreeD.columns (ThreeD.block (1, -5, -5)))
             [7]%nat [ThreeD.block (1, -5, -5)]
             (ThreeD.columns (ThreeD.block (1, -5, -5))) [7]%nat).
    vm_compute; reflexivity.
Defined.
